(** * Text-to-SQL application core: safety gate, SQL cleaner, join repair
      and execution engine of [app_core.py], embedded in Rocq.

    Python [str] values are modelled as lists of characters whose code
    points lie below 256 (Latin-1); on that range [str.lower],
    [str.strip] and the [re] classes [\s], [\w] are given by the tables
    below.  Code points from 256 on are outside the model. *)

From Stdlib Require Import Ascii String.
From Stdlib Require Import List Bool Arith NArith ZArith Lia.
From Stdlib Require QArith.
Import ListNotations.

(** ** Python string primitives *)

Module PyStr.

Definition str := list ascii.

(** A literal of the source. *)
Definition py (s : string) : str := list_ascii_of_string s.

Definition ord (c : ascii) : N := N_of_ascii c.

Definition between (lo hi n : N) : bool := (N.leb lo n) && (N.leb n hi).

(** [c.isspace()]; also the class [\s] of [re] on [str] patterns. *)
Definition isspace (c : ascii) : bool :=
  let n := ord c in
  between 9 13 n || between 28 32 n || N.eqb n 133 || N.eqb n 160.

(** [c.lower()] for a single character. *)
Definition lower_char (c : ascii) : ascii :=
  let n := ord c in
  if between 65 90 n || between 192 214 n || between 216 222 n
  then ascii_of_N (n + 32)
  else c.

(** The class [\w] of [re] on [str] patterns. *)
Definition isword (c : ascii) : bool :=
  let n := ord c in
  between 48 57 n || between 65 90 n || N.eqb n 95 || between 97 122 n
  || N.eqb n 170 || between 178 179 n || N.eqb n 181 || between 185 186 n
  || between 188 190 n || between 192 214 n || between 216 246 n
  || between 248 255 n.

(** [s.lower()] *)
Definition lower (s : str) : str := map lower_char s.

(** [s.lstrip(chars)], [s.rstrip(chars)] with the stripped set given as a
    predicate. *)
Fixpoint lstrip_by (p : ascii -> bool) (s : str) : str :=
  match s with
  | [] => []
  | c :: r => if p c then lstrip_by p r else s
  end.

Definition rstrip_by (p : ascii -> bool) (s : str) : str :=
  rev (lstrip_by p (rev s)).

(** [s.strip()] *)
Definition strip (s : str) : str := rstrip_by isspace (lstrip_by isspace s).

(** [s.rstrip(chars)] for an explicit character set. *)
Definition rstrip_chars (chars : str) (s : str) : str :=
  rstrip_by (fun c => existsb (Ascii.eqb c) chars) s.

(** [s.startswith(p)] *)
Fixpoint startswith (p s : str) : bool :=
  match p, s with
  | [], _ => true
  | a :: p', c :: s' => Ascii.eqb a c && startswith p' s'
  | _ :: _, [] => false
  end.

(** [t in s] *)
Fixpoint contains (t s : str) : bool :=
  startswith t s ||
  match s with
  | [] => false
  | _ :: r => contains t r
  end.

(** [s.count(sub)]: occurrences that do not overlap, scanned from the
    left; [skip] characters of the current occurrence remain to pass. *)
Fixpoint count_from (sub : str) (skip : nat) (s : str) : nat :=
  match s with
  | [] => 0
  | _ :: r =>
      match skip with
      | S k => count_from sub k r
      | O => if startswith sub s
             then S (count_from sub (length sub - 1) r)
             else count_from sub 0 r
      end
  end.

Definition count (sub s : str) : nat :=
  match sub with
  | [] => S (length s)
  | _ => count_from sub 0 s
  end.

(** [any(f(x) for x in xs)] *)
Definition any {A} (f : A -> bool) (xs : list A) : bool := existsb f xs.

End PyStr.
Import PyStr.

(** ** The safety gate *)

Definition forbidden : list str :=
  [py "insert"; py "update"; py "delete"; py "drop"; py "alter";
   py "create"; py "attach"; py "pragma"; py "vacuum"; py ";--"; py "--"].

Definition is_sql_safe (sql : str) : bool :=
  match sql with
  | [] => false
  | _ =>
      let sql_lower := lower (strip sql) in
      if negb (startswith (py "select") sql_lower) then false
      else if any (fun token => contains token sql_lower) forbidden then false
      else if contains (py ";") sql_lower && (1 <? count (py ";") sql_lower)
      then false
      else true
  end.

(** ** Regular expressions of the source

    Each pattern of [app_core.py] is embedded as a matcher anchored at the
    head of the remaining text: it returns the length of the match found
    there, if any.  All three patterns are compiled with [re.IGNORECASE],
    their word boundaries follow a letter, and none can match the empty
    string. *)

Module Re.

(** A literal given in lower case, matched ignoring case; the rest of the
    text after it. *)
Fixpoint lit_ci (p s : str) : option str :=
  match p, s with
  | [], _ => Some s
  | a :: p', c :: s' =>
      if Ascii.eqb (lower_char c) a then lit_ci p' s' else None
  | _ :: _, [] => None
  end.

(** [\b] after a word character: end of text or a character outside [\w]. *)
Definition boundary (s : str) : bool :=
  match s with
  | [] => true
  | c :: _ => negb (isword c)
  end.

(** The fence pattern: three backquotes, then [sql] if it follows. *)
Definition fence_at (s : str) : option nat :=
  match lit_ci (py "```") s with
  | Some r =>
      match lit_ci (py "sql") r with
      | Some _ => Some 6
      | None => Some 3
      end
  | None => None
  end.

(** The word [select] followed by a word boundary: the part of the search
    pattern that decides where group 1 starts; under [re.DOTALL] the rest
    of the pattern then runs to the end of the text. *)
Definition select_at (s : str) : bool :=
  match lit_ci (py "select") s with
  | Some r => boundary r
  | None => false
  end.

(** Length of the run matched by a greedy [\s*]. *)
Fixpoint spaces (s : str) : nat :=
  match s with
  | c :: r => if isspace c then S (spaces r) else 0
  | [] => 0
  end.

(** The pattern of the join repair: [from], one or more [\s], [sales],
    a word boundary.  The greedy run of [\s] never gives characters back,
    as the literal after it starts with a letter. *)
Definition from_sales_at (s : str) : option nat :=
  match lit_ci (py "from") s with
  | Some r =>
      match spaces r with
      | O => None
      | S k =>
          match lit_ci (py "sales") (skipn (S k) r) with
          | Some r' => if boundary r' then Some (4 + S k + 5) else None
          | None => None
          end
      end
  | None => None
  end.

(** [re.sub(pattern, repl, s)] for a pattern without empty matches:
    every match, scanning from the left, is replaced; [skip] characters of
    the current match remain to pass. *)
Fixpoint sub_from (m : str -> option nat) (repl : str) (skip : nat) (s : str)
  : str :=
  match s with
  | [] => []
  | c :: r =>
      match skip with
      | S k => sub_from m repl k r
      | O =>
          match m s with
          | Some (S n) => repl ++ sub_from m repl n r
          | _ => c :: sub_from m repl 0 r
          end
      end
  end.

Definition sub (m : str -> option nat) (repl s : str) : str :=
  sub_from m repl 0 s.

(** [pattern.sub(repl, s, count=1)]: the leftmost match only. *)
Fixpoint sub_first (m : str -> option nat) (repl s : str) : str :=
  match s with
  | [] => []
  | c :: r =>
      match m s with
      | Some n => repl ++ skipn n s
      | None => c :: sub_first m repl r
      end
  end.

(** [re.search] for the select pattern: group 1 of the leftmost match. *)
Fixpoint search_select (s : str) : option str :=
  if select_at s then Some s
  else match s with
       | [] => None
       | _ :: r => search_select r
       end.

End Re.

(** ** The SQL cleaner *)

Definition _clean_model_sql (raw : str) : str :=
  match raw with
  | [] => raw
  | _ =>
      let sql := strip raw in
      let sql := strip (Re.sub Re.fence_at [] sql) in
      match Re.search_select sql with
      | Some candidate => strip candidate
      | None => sql
      end
  end.

(** ** Join repair *)

Definition nl : str := ["010"%char].

Definition replacement : str :=
  py "FROM sales s" ++ nl ++
  py "LEFT JOIN products p ON s.product_id = p.product_id" ++ nl ++
  py "LEFT JOIN customers c ON s.customer_id = c.customer_id".

Definition _auto_fix_joins (sql : str) : str :=
  let sql_lower := lower sql in
  if contains (py "from sales") sql_lower
     && (contains (py "product_name") sql_lower
         || contains (py "customer_name") sql_lower
         || contains (py "customers.name") sql_lower)
  then
    if contains (py "join products") sql_lower
       || contains (py "join customers") sql_lower
    then sql
    else Re.sub_first Re.from_sales_at replacement sql
  else sql.


(** ** The execution engine

    [run_sql] talks to SQLite through [sqlite3.connect], [pd.read_sql_query]
    and [conn.close].  The world it acts on holds the store, the table of
    connections opened so far and the trace of calls made to the driver.
    What the driver answers is a parameter: whether the database file can
    be opened, and the frame or error text a statement yields on a store
    together with the store it leaves behind. *)

Module Exec.

(** Exceptions, all of them subclasses of Python's [Exception]:
    the ones [run_sql] raises itself and the ones of the driver. *)
Inductive exn : Type :=
| Exception (msg : str)
| DriverError (msg : str).

(** [str(e)], as interpolated by an f-string. *)
Definition exn_text (e : exn) : str :=
  match e with
  | Exception msg => msg
  | DriverError msg => msg
  end.

Inductive conn_state : Type := Open | Closed.

Inductive event : Type :=
| EvConnect (c : nat)
| EvQuery (c : nat) (sql : str)
| EvClose (c : nat).

Inductive result (A : Type) : Type :=
| Ret (a : A)
| Raise (e : exn).

Arguments Ret {A} a.
Arguments Raise {A} e.

Fixpoint set_state (c : nat) (v : conn_state) (l : list conn_state)
  : list conn_state :=
  match l, c with
  | [], _ => []
  | _ :: r, O => v :: r
  | x :: r, S k => x :: set_state k v r
  end.

Definition is_open (s : conn_state) : bool :=
  match s with
  | Open => true
  | Closed => false
  end.

Definition open_count (l : list conn_state) : nat :=
  List.length (filter is_open l).

Section WithDriver.

Variables Store DataFrame : Type.

(** [sqlite3.connect(DB_PATH)]: the error text when it fails. *)
Variable sqlite_connect : Store -> option str.

(** [pd.read_sql_query(sql, conn)]: error text or frame, and the store
    after the statement has run. *)
Variable read_sql_query : str -> Store -> (str + DataFrame) * Store.

Record World : Type := mkWorld {
  store : Store;
  conns : list conn_state;
  trace : list event
}.

(** Computations that read and change the world and may raise. *)
Definition M (A : Type) : Type := World -> result A * World.

Definition ret {A} (a : A) : M A := fun w => (Ret a, w).

Definition raise {A} (e : exn) : M A := fun w => (Raise e, w).

Definition bind {A B} (m : M A) (k : A -> M B) : M B :=
  fun w =>
    match m w with
    | (Ret a, w') => k a w'
    | (Raise e, w') => (Raise e, w')
    end.

(** [try: m  except Exception as e: h e] *)
Definition try_except {A} (m : M A) (h : exn -> M A) : M A :=
  fun w =>
    match m w with
    | (Ret a, w') => (Ret a, w')
    | (Raise e, w') => h e w'
    end.

Notation "x <- m ;; k" := (bind m (fun x => k))
  (at level 61, m at next level, right associativity).
Notation "m ;;; k" := (bind m (fun _ => k))
  (at level 61, right associativity).

Definition connect : M nat :=
  fun w =>
    match sqlite_connect (store w) with
    | Some msg => (Raise (DriverError msg), w)
    | None =>
        let c := List.length (conns w) in
        (Ret c, mkWorld (store w) (conns w ++ [Open])
                        (trace w ++ [EvConnect c]))
    end.

Definition pd_read_sql_query (sql : str) (c : nat) : M DataFrame :=
  fun w =>
    let (r, st) := read_sql_query sql (store w) in
    let w' := mkWorld st (conns w) (trace w ++ [EvQuery c sql]) in
    match r with
    | inl msg => (Raise (DriverError msg), w')
    | inr df => (Ret df, w')
    end.

Definition close (c : nat) : M unit :=
  fun w =>
    (Ret tt, mkWorld (store w) (set_state c Closed (conns w))
                     (trace w ++ [EvClose c])).

Definition blocked_message : str :=
  py "SQL blocked by safety policy (only SELECT allowed or query contained unsafe tokens).".

Definition run_sql (sql : str) : M DataFrame :=
  if negb (is_sql_safe sql) then raise (Exception blocked_message)
  else
    let sql_to_run := rstrip_chars (py ";") (strip sql) in
    conn <- connect ;;
    df <- try_except (pd_read_sql_query sql_to_run conn)
            (fun e =>
               close conn ;;;
               raise (Exception (py "SQL execution error: " ++ exn_text e))) ;;
    close conn ;;;
    ret df.

End WithDriver.

Arguments mkWorld {Store} store conns trace.
Arguments store {Store} w.
Arguments conns {Store} w.
Arguments trace {Store} w.
Arguments run_sql {Store DataFrame} sqlite_connect read_sql_query sql.

(** A small driver to run the engine on: the store counts the statements
    executed on it, the database file always opens, and a statement that
    names the column [no_such_column] fails the way SQLite reports it. *)
Definition demo_connect (st : nat) : option str := None.

Definition demo_read (sql : str) (st : nat) : (str + list str) * nat :=
  if contains (py "no_such_column") (lower sql)
  then (inl (py "no such column: no_such_column"), S st)
  else (inr [sql], S st).

Definition demo_world : World nat := mkWorld 0 [Closed; Open] [].

End Exec.

(** ** The generation and explanation clients

    Both functions send one request to the chat completion service and
    read the text of its first choice.  The service is a parameter: for a
    request it answers with a text or raises. *)

Module Llm.

Import Exec.

(** The text of a list of source lines, each ended by a line feed. *)
Definition lines (ls : list string) : str :=
  concat (map (fun l => py l ++ nl) ls).

Definition dq : str := ["034"%char].

Definition SCHEMA_NOTE : str :=
  nl ++ lines
    ["Database schema (use these exact names):";
     "";
     "TABLE products:";
     " - product_id  (INTEGER)   -- primary key";
     " - product_name (TEXT)";
     " - category (TEXT)";
     "";
     "TABLE customers:";
     " - customer_id (INTEGER)   -- primary key";
     " - name (TEXT)";
     " - city (TEXT)";
     "";
     "TABLE sales:";
     " - id (INTEGER)            -- primary key";
     " - date (TEXT)             -- format YYYY-MM-DD";
     " - product_id (INTEGER)    -- foreign key -> products.product_id";
     " - customer_id (INTEGER)   -- foreign key -> customers.customer_id";
     " - quantity (INTEGER)";
     " - price (REAL)"]%string.

Definition system_msg : str :=
  py "You are an expert SQL generator for SQLite databases. "
  ++ py "You must follow instructions strictly and only output a single valid SQL SELECT statement (no explanation). "
  ++ py "Do NOT return any commentary. Do NOT use backticks. Use the exact table and column names provided.".

Definition user_msg (question : str) : str :=
  nl ++ SCHEMA_NOTE ++ nl
  ++ lines
       ["";
        "Important rules for generation:";
        "- Output ONLY one SELECT SQL statement. Do NOT output explanation or text.";
        "- Use the exact column names from the schema above:";
        "  - product_name is products.product_name (NOT products.name)";
        "  - product primary key is products.product_id";
        "  - customer name is customers.name (NOT customers.customer_name)";
        "  - customer primary key is customers.customer_id";
        "  - sale price is in sales.price (NOT products.price)";
        "  - join using sales.product_id = products.product_id and sales.customer_id = customers.customer_id";
        "- If the question requests product name or customer name, include JOINs to products and customers.";
        "- Use table aliases s (sales), p (products), c (customers) when helpful.";
        "- Only use SQLite-compatible functions.";
        "- Avoid speculative column names. If unsure, prefer columns present in the schema.";
        "";
        "User question:"]%string
  ++ dq ++ dq ++ dq ++ question ++ dq ++ dq ++ dq ++ nl.

Inductive role : Type := System | User.

(** The arguments of [client.chat.completions.create]. *)
Record request : Type := mkRequest {
  req_model : str;
  req_messages : list (role * str);
  req_max_tokens : Z;
  req_temperature : QArith_base.Q
}.

Definition zero_temperature : QArith_base.Q := QArith_base.Qmake 0 1.

Section WithClient.

(** [client.chat.completions.create(...)] followed by
    [.choices[0].message.content]. *)
Variable chat : request -> result str.

Definition generate_sql_from_text (question model : str) (max_tokens : Z)
  : result str :=
  match chat (mkRequest model
                [(System, system_msg); (User, user_msg question)]
                max_tokens zero_temperature) with
  | Raise e => Raise (Exception (py "OpenAI API error: " ++ exn_text e))
  | Ret raw =>
      let sql := _clean_model_sql raw in
      let sql := _auto_fix_joins sql in
      Ret sql
  end.

Definition explain_prompt (sql : str) : str :=
  py "Explain this SQL query in simple plain English in 2-3 sentences. SQL:"
  ++ nl ++ nl ++ sql.

Definition explain_sql (sql model : str) (max_tokens : Z) : result str :=
  match chat (mkRequest model [(User, explain_prompt sql)]
                max_tokens zero_temperature) with
  | Ret content => Ret (strip content)
  | Raise e => Ret (py "(Explanation failed: " ++ exn_text e ++ py ")")
  end.

End WithClient.

(** The defaults of the two signatures. *)
Definition default_model : str := py "gpt-4o-mini".

Definition generate_max_tokens : Z := 300.

Definition explain_max_tokens : Z := 200.

(** A service to run the clients on: it answers every request with the
    same fenced statement. *)
Definition demo_chat (r : request) : result str :=
  Ret (py "Here you go:" ++ nl ++ py "```sql" ++ nl
       ++ py "SELECT product_name FROM sales;" ++ nl ++ py "```").

End Llm.

(** ** Schema introspection

    [get_db_schema] asks the operating system whether the database file
    exists, connects, and runs its statements through a cursor.  The
    answers are parameters: a statement yields an error text or its rows
    (each row the list of its fields), and the store it leaves behind.
    The world is the one of the execution engine. *)

Module Introspect.

Import Exec.

(** What the function can raise: an error of SQLite, or the failure of
    an index into a row that is too short. *)
Inductive error : Type :=
| SqliteError (msg : str)
| IndexError.

(** A Python [dict] with text keys, in insertion order. *)
Definition dict (V : Type) : Type := list (str * V).

Definition str_eqb (a b : str) : bool :=
  if list_eq_dec ascii_dec a b then true else false.

(** [d[k] = v] *)
Fixpoint dict_set {V} (k : str) (v : V) (d : dict V) : dict V :=
  match d with
  | [] => [(k, v)]
  | (k', v') :: r =>
      if str_eqb k' k then (k, v) :: r else (k', v') :: dict_set k v r
  end.

(** [d.get(k)] *)
Fixpoint dict_get {V} (k : str) (d : dict V) : option V :=
  match d with
  | [] => None
  | (k', v') :: r => if str_eqb k' k then Some v' else dict_get k r
  end.

(** [[row[i] for row in rows]] *)
Fixpoint column (i : nat) (rows : list (list str)) : error + list str :=
  match rows with
  | [] => inr []
  | row :: rest =>
      match nth_error row i with
      | None => inl IndexError
      | Some field =>
          match column i rest with
          | inl e => inl e
          | inr fields => inr (field :: fields)
          end
      end
  end.

Definition tables_query : str :=
  py "SELECT name FROM sqlite_master WHERE type='table';".

Definition table_info_query (t : str) : str :=
  py "PRAGMA table_info(" ++ t ++ py ");".

Section WithDatabase.

Variable Store : Type.

(** [os.path.exists(DB_PATH)] *)
Variable path_exists : Store -> bool.

(** [sqlite3.connect(DB_PATH)]: the error text when it fails. *)
Variable sqlite_connect : Store -> option str.

(** [cur.execute(sql)] followed by [cur.fetchall()]. *)
Variable execute : str -> Store -> (str + list (list str)) * Store.

Definition M (A : Type) : Type := World Store -> (error + A) * World Store.

Definition cur_execute (c : nat) (sql : str) : M (list (list str)) :=
  fun w =>
    let (r, st) := execute sql (store w) in
    let w' := mkWorld st (conns w) (trace w ++ [EvQuery c sql]) in
    match r with
    | inl msg => (inl (SqliteError msg), w')
    | inr rows => (inr rows, w')
    end.

(** The loop over the tables. *)
Fixpoint load_tables (c : nat) (tables : list str) (schema : dict (list str))
  : M (dict (list str)) :=
  fun w =>
    match tables with
    | [] => (inr schema, w)
    | t :: rest =>
        match cur_execute c (table_info_query t) w with
        | (inl e, w') => (inl e, w')
        | (inr rows, w') =>
            match column 1 rows with
            | inl e => (inl e, w')
            | inr cols => load_tables c rest (dict_set t cols schema) w'
            end
        end
    end.

(** The body of the [try] block. *)
Definition load_schema (c : nat) (schema : dict (list str))
  : M (dict (list str)) :=
  fun w =>
    match cur_execute c tables_query w with
    | (inl e, w') => (inl e, w')
    | (inr rows, w') =>
        match column 0 rows with
        | inl e => (inl e, w')
        | inr tables => load_tables c tables schema w'
        end
    end.

Definition conn_close (c : nat) (w : World Store) : World Store :=
  mkWorld (store w) (set_state c Closed (conns w)) (trace w ++ [EvClose c]).

Definition get_db_schema : M (dict (list str)) :=
  fun w =>
    let schema := [] in
    if negb (path_exists (store w)) then (inr schema, w)
    else
      match sqlite_connect (store w) with
      | Some msg => (inl (SqliteError msg), w)
      | None =>
          let c := List.length (conns w) in
          let w1 := mkWorld (store w) (conns w ++ [Open])
                            (trace w ++ [EvConnect c]) in
          (* try: ... finally: conn.close() *)
          let (r, w2) := load_schema c schema w1 in
          (r, conn_close c w2)
      end.

End WithDatabase.

Arguments cur_execute {Store} execute c sql.
Arguments load_tables {Store} execute c tables schema.
Arguments load_schema {Store} execute c schema.
Arguments conn_close {Store} c w.
Arguments get_db_schema {Store} path_exists sqlite_connect execute.

(** On the store [st], [PRAGMA table_info] gives the table [t] the
    columns [cols], and leaves the store as it is. *)
Definition table_columns {Store}
           (execute : str -> Store -> (str + list (list str)) * Store)
           (st : Store) (t : str) (cols : list str) : Prop :=
  exists rows,
    execute (table_info_query t) st = (inr rows, st)
    /\ column 1 rows = inr cols.

(** A database to run the introspection on: the store lists its tables
    with their columns; [table_info] rows carry the column index and the
    column name. *)
Definition demo_db : list (str * list str) :=
  [(py "products", [py "product_id"; py "product_name"; py "category"]);
   (py "customers", [py "customer_id"; py "name"; py "city"])].

Definition demo_execute (sql : str) (db : list (str * list str))
  : (str + list (list str)) * list (str * list str) :=
  if str_eqb sql tables_query then (inr (map (fun e => [fst e]) db), db)
  else
    match find (fun e => str_eqb sql (table_info_query (fst e))) db with
    | Some e => (inr (map (fun col => [py "0"; col]) (snd e)), db)
    | None => (inl (py "no such table"), db)
    end.

Definition demo_connect_ok (db : list (str * list str)) : option str := None.

Definition demo_db_world : World (list (str * list str)) :=
  mkWorld demo_db [] [].

End Introspect.

(** ** The demo database script

    [generate_demo_db.py] rebuilds the three tables and fills them, the
    sales from random draws.  The random source is a parameter: a state
    and the two draws the script makes, [random.randint] and the index
    [random.choice] picks, each within the bounds Python's documentation
    gives.  Dates are kept as the day numbers of [datetime.date]; the
    calendar ([date(y, m, d)] as a day number, for the years [datetime]
    accepts, and [isoformat]) is a parameter as well.  The connection
    the script writes through, its commit and its last message are not
    modelled: the script is taken from the tables it finds to the tables
    it leaves. *)

Module DemoDb.

Inductive error : Type :=
| ValueError
| KeyError
| IndexError
| IntegrityError.

Record sale : Type := mkSale {
  sale_id : Z;
  sale_date : str;
  sale_product_id : Z;
  sale_customer_id : Z;
  sale_quantity : Z;
  sale_price : Z
}.

Record database : Type := mkDatabase {
  products_table : list (Z * str * str);
  customers_table : list (Z * str * str);
  sales_table : list sale
}.

(** [range(a, b)] *)
Definition range (a b : nat) : list Z := map Z.of_nat (seq a (b - a)).

(** [l[i]], an index below zero counting from the end. *)
Definition index {A} (l : list A) (i : Z) : error + A :=
  let n := Z.of_nat (List.length l) in
  let j := if (i <? 0)%Z then (n + i)%Z else i in
  if (j <? 0)%Z then inl IndexError
  else match nth_error l (Z.to_nat j) with
       | Some x => inr x
       | None => inl IndexError
       end.

(** [d[k]] for a [dict] with integer keys. *)
Fixpoint lookup (d : list (Z * Z)) (k : Z) : error + Z :=
  match d with
  | [] => inl KeyError
  | (k', v) :: r => if (k' =? k)%Z then inr v else lookup r k
  end.

(** [executemany] of an [INSERT] into a table whose first column is the
    integer primary key: a row whose key is already there is refused. *)
Fixpoint insert_all {A} (key : A -> Z) (rows table : list A)
  : error + list A :=
  match rows with
  | [] => inr table
  | row :: rest =>
      if existsb (fun r => (key r =? key row)%Z) table
      then inl IntegrityError
      else insert_all key rest (table ++ [row])
  end.

Definition products : list (Z * str * str) :=
  [(1, py "Laptop Pro 14", py "Electronics");
   (2, py "Laptop Air 13", py "Electronics");
   (3, py "Wireless Mouse", py "Accessories");
   (4, py "Mechanical Keyboard", py "Accessories");
   (5, py "Smartphone X", py "Mobiles");
   (6, py "Smartphone Lite", py "Mobiles");
   (7, py "Washing Machine 7kg", py "Home Appliances");
   (8, py "Refrigerator 300L", py "Home Appliances");
   (9, py "LED TV 43 inch", py "Electronics");
   (10, py "Air Conditioner 1.5T", py "Home Appliances")]%Z.

Definition customer_names : list str :=
  [py "Asha Sharma"; py "Ravi Kumar"; py "Priya Mehta"; py "Rahul Singh";
   py "Neha Patel"; py "Arjun Verma"; py "Simran Gupta"; py "Vivek Yadav";
   py "Aditya Kapoor"; py "Kiran Reddy"; py "Zoya Khan"; py "Imran Shaikh";
   py "Meera Joshi"; py "Ramesh Das"; py "Suhani Goyal"].

Definition cities : list str :=
  [py "Bengaluru"; py "Mumbai"; py "Delhi"; py "Hyderabad"; py "Chennai"].

Definition price_map : list (Z * Z) :=
  [(1, 90000); (2, 70000); (3, 1200); (4, 3500); (5, 65000);
   (6, 35000); (7, 18000); (8, 24000); (9, 34000); (10, 42000)]%Z.

Definition key3 (row : Z * str * str) : Z := fst (fst row).

Section WithRandom.

Variable Rng : Type.

(** The value [random.randint(lo, hi)] draws when [lo <= hi]. *)
Variable draw : Z -> Z -> Rng -> Z * Rng.

(** The index [random.choice] picks in a sequence of [n > 0] items. *)
Variable pick : nat -> Rng -> nat * Rng.

(** [datetime.date(y, m, d)] as a day number. *)
Variable date : Z -> Z -> Z -> Z.

(** [isoformat()] of the date with a day number. *)
Variable isoformat : Z -> str.

(** Computations that draw and may raise. *)
Definition R (A : Type) : Type := Rng -> (error + A) * Rng.

Definition ret {A} (a : A) : R A := fun g => (inr a, g).

Definition bind {A B} (m : R A) (k : A -> R B) : R B :=
  fun g =>
    match m g with
    | (inr a, g') => k a g'
    | (inl e, g') => (inl e, g')
    end.

Definition lift {A} (r : error + A) : R A := fun g => (r, g).

Notation "x <- m ;; k" := (bind m (fun x => k))
  (at level 61, m at next level, right associativity).

(** [random.randint(lo, hi)]: an empty range is a [ValueError]. *)
Definition randint (lo hi : Z) : R Z :=
  fun g =>
    if (hi <? lo)%Z then (inl ValueError, g)
    else let (v, g') := draw lo hi g in (inr v, g').

(** [random.choice(seq)]: an empty sequence is an [IndexError]. *)
Definition choice {A} (l : list A) : R A :=
  fun g =>
    match l with
    | [] => (inl IndexError, g)
    | _ =>
        let (i, g') := pick (List.length l) g in
        (index l (Z.of_nat i), g')
    end.

(** The day number [random_date] draws; its result is the [isoformat]
    of that day. *)
Definition random_day (start_year end_year : Z) : R Z :=
  let start := date start_year 1 1 in
  let end_ := date end_year 12 31 in
  let delta_days := (end_ - start)%Z in
  random_days <- randint 0 delta_days ;;
  ret (start + random_days)%Z.

Definition random_date (start_year end_year : Z) : R str :=
  day <- random_day start_year end_year ;;
  ret (isoformat day).

(** The loop that builds [customers]. *)
Fixpoint build_customers (cids : list Z) (customers : list (Z * str * str))
  : R (list (Z * str * str)) :=
  match cids with
  | [] => ret customers
  | cid :: rest =>
      name <- lift (index customer_names (cid - 1)) ;;
      city <- choice cities ;;
      build_customers rest (customers ++ [(cid, name, city)])
  end.

(** The loop that builds [sales]. *)
Fixpoint build_sales (sids : list Z) (sales : list sale) : R (list sale) :=
  match sids with
  | [] => ret sales
  | sid :: rest =>
      date_ <- random_date 2023 2025 ;;
      product_id <- randint 1 10 ;;
      customer_id <- randint 1 15 ;;
      quantity <- randint 1 10 ;;
      base <- lift (lookup price_map product_id) ;;
      offset <- randint (-2000) 2000 ;;
      build_sales rest
        (sales ++ [mkSale sid date_ product_id customer_id quantity
                          (base + offset)])
  end.

(** The script: the tables are dropped and created again, then filled. *)
Definition script (db0 : database) : R database :=
  let db := mkDatabase [] [] [] in
  ps <- lift (insert_all key3 products (products_table db)) ;;
  customers <- build_customers (range 1 16) [] ;;
  cs <- lift (insert_all key3 customers (customers_table db)) ;;
  sales <- build_sales (range 1 151) [] ;;
  ss <- lift (insert_all sale_id sales (sales_table db)) ;;
  ret (mkDatabase ps cs ss).

End WithRandom.

Arguments randint {Rng} draw lo hi.
Arguments choice {Rng} pick {A} l.
Arguments random_day {Rng} draw date start_year end_year.
Arguments random_date {Rng} draw date isoformat start_year end_year.
Arguments build_customers {Rng} pick cids customers.
Arguments build_sales {Rng} draw date isoformat sids sales.
Arguments script {Rng} draw pick date isoformat db0.

(** What the script makes of a customer: the name listed at its
    identifier, and one of the cities. *)
Definition customer_ok (row : Z * str * str) : Prop :=
  index customer_names (key3 row - 1) = inr (snd (fst row))
  /\ In (snd row) cities.

(** What the script makes of a sale: identifiers of a product and of a
    customer that exist, a quantity from 1 to 10, a price within 2000 of
    the price listed for the product, a date from the first day of 2023
    to the last of 2025. *)
Definition sale_ok (date : Z -> Z -> Z -> Z) (isoformat : Z -> str)
           (s : sale) : Prop :=
  (1 <= sale_product_id s <= 10)%Z
  /\ (1 <= sale_customer_id s <= 15)%Z
  /\ (1 <= sale_quantity s <= 10)%Z
  /\ (exists base,
         lookup price_map (sale_product_id s) = inr base
         /\ (base - 2000 <= sale_price s <= base + 2000)%Z)
  /\ (exists day,
         sale_date s = isoformat day
         /\ (date 2023 1 1 <= day <= date 2025 12 31)%Z).

(** A random source to run the script on: the state counts the draws;
    [randint] gives 3 between 1 and 10 and the lower bound otherwise,
    [choice] the first item; the calendar is a toy one with months of 31
    days, and every date prints the same. *)
Definition demo_draw (lo hi : Z) (g : nat) : Z * nat :=
  if ((lo =? 1) && (hi =? 10))%Z then (3%Z, S g) else (lo, S g).

Definition demo_pick (n : nat) (g : nat) : nat * nat := (0, S g).

Definition demo_date (y m d : Z) : Z :=
  ((y - 2023) * 372 + (m - 1) * 31 + (d - 1))%Z.

Definition demo_isoformat (day : Z) : str := py "2023-01-01".

End DemoDb.

(** ** The run step of the page

    The part of [app.py] that gates and runs a statement: the page shows
    an error and stops when the gate rejects the text or [run_sql]
    raises, and goes on with the frame otherwise.  What the page goes on
    to do with the frame (display, chart, export, history) is not
    modelled. *)

Module App.

Import Exec.

Inductive run_outcome (DataFrame : Type) : Type :=
| Stopped (error_shown : str)
| Executed (df : DataFrame).

Arguments Stopped {DataFrame} error_shown.
Arguments Executed {DataFrame} df.

Definition unsafe_message : str :=
  py "Unsafe SQL detected. Only SELECT queries are allowed.".

Section WithDriver.

Variables Store DataFrame : Type.
Variable sqlite_connect : Store -> option str.
Variable read_sql_query : str -> Store -> (str + DataFrame) * Store.

Definition run_step (run_sql_text : str) (w : World Store)
  : run_outcome DataFrame * World Store :=
  if negb (is_sql_safe run_sql_text) then (Stopped unsafe_message, w)
  else
    match run_sql sqlite_connect read_sql_query run_sql_text w with
    | (Ret df, w') => (Executed df, w')
    | (Raise e, w') => (Stopped (py "SQL Error: " ++ exn_text e), w')
    end.

End WithDriver.

Arguments run_step {Store DataFrame} sqlite_connect read_sql_query
  run_sql_text w.

End App.

(** ** Vocabulary of the specification *)

(** [t] occurs in [s]. *)
Definition Infix (t s : str) : Prop := exists a b, s = a ++ t ++ b.

(** [s] begins with [p]. *)
Definition Prefix (p s : str) : Prop := exists r, s = p ++ r.

(** A text without white space in it, and not empty: an occurrence of it
    cannot reach into the white space that [strip] removes. *)
Definition solid (t : str) : bool :=
  match t with
  | [] => false
  | _ => forallb (fun c => negb (isspace c)) t
  end.

(** Number of semicolons of a text. *)
Definition semicolons (s : str) : nat := count_occ ascii_dec s ";"%char.

(** A token of the forbidden set occurs in the text, case ignored. *)
Definition forbidden_in (s : str) : Prop :=
  exists token, In token forbidden /\ Infix token (lower s).

(** The word select, in any case, ending at a word boundary, stands at the
    head of the text. *)
Definition SelectWord (s : str) : Prop :=
  exists w rest,
    s = w ++ rest /\ lower w = py "select"
    /\ (rest = [] \/ exists c r, rest = c :: r /\ isword c = false).

(** The text the cleaner searches: the trimmed input with its fence
    markers removed, trimmed again. *)
Definition fence_stripped (raw : str) : str :=
  strip (Re.sub Re.fence_at [] (strip raw)).

(** The reading of the specification: the text from the first occurrence
    of the letters select, case ignored, whatever follows them. *)
Fixpoint spec_first_select (s : str) : option str :=
  match Re.lit_ci (py "select") s with
  | Some _ => Some s
  | None =>
      match s with
      | [] => None
      | _ :: r => spec_first_select r
      end
  end.

(** The three rules of the gate, on the trimmed and lower-cased text. *)
Definition gate_rules (sql_lower : str) : bool :=
  startswith (py "select") sql_lower
  && negb (any (fun token => contains token sql_lower) forbidden)
  && negb (contains (py ";") sql_lower && (1 <? count (py ";") sql_lower)).

(** The clause the join repair looks for: the word from, white space,
    the word sales, case ignored. *)
Definition FromSalesClause (clause : str) : Prop :=
  exists f sp sl,
    clause = f ++ sp ++ sl
    /\ lower f = py "from" /\ sp <> [] /\ forallb isspace sp = true
    /\ lower sl = py "sales".

(** ** Tactics *)

Ltac all_chars c :=
  destruct c as [[] [] [] [] [] [] [] []]; vm_compute; try reflexivity;
  try discriminate; auto.

Ltac backquotes :=
  cbn [startswith py list_ascii_of_string] in *;
  repeat match goal with
         | H : context [Ascii.eqb "`" ?x] |- _ =>
             destruct (Ascii.eqb "`" x); cbn [andb] in *
         | |- context [Ascii.eqb "`" ?x] =>
             destruct (Ascii.eqb "`" x); cbn [andb] in *
         end;
  try reflexivity; try congruence.

(** * Properties *)

(** ** Characters *)

Lemma isspace_lower_char (c : ascii) : isspace (lower_char c) = isspace c.
Proof. all_chars c. Qed.

Lemma lower_char_idem (c : ascii) : lower_char (lower_char c) = lower_char c.
Proof. all_chars c. Qed.

Lemma lower_char_semicolon (c : ascii) :
  Ascii.eqb (lower_char c) ";" = Ascii.eqb c ";".
Proof. all_chars c. Qed.

Lemma lower_char_backquote (c : ascii) :
  Ascii.eqb (lower_char c) "`" = Ascii.eqb "`" c.
Proof. all_chars c. Qed.

(** ** Strings: prefixes, substrings, trimming *)

Lemma startswith_spec (p s : str) : startswith p s = true <-> Prefix p s.
Proof.
  revert s. induction p as [|a p IH]; intros s; simpl.
  - split; [intros _; now exists s | reflexivity].
  - destruct s as [|c s].
    + split; [discriminate | intros [r H]; discriminate H].
    + rewrite andb_true_iff, Ascii.eqb_eq, IH. split.
      * intros [-> [r ->]]. now exists r.
      * intros [r H]. simpl in H. injection H as -> ->. split; [reflexivity | now exists r].
Qed.

Lemma contains_spec (t s : str) : contains t s = true <-> Infix t s.
Proof.
  induction s as [|c s IH].
  - simpl. rewrite orb_false_r, startswith_spec. split.
    + intros [r H]. exists [], r. exact H.
    + intros [a [b H]]. destruct a; [now exists b | discriminate H].
  - cbn [contains]. rewrite orb_true_iff, startswith_spec, IH. split.
    + intros [[r H] | [a [b H]]].
      * exists [], r. exact H.
      * exists (c :: a), b. simpl. now rewrite H.
    + intros [a [b H]]. destruct a as [|x a].
      * left. now exists b.
      * right. simpl in H. injection H as _ H. now exists a, b.
Qed.

Lemma contains_false (t s : str) : contains t s = false <-> ~ Infix t s.
Proof.
  rewrite <- contains_spec. destruct (contains t s); split; intros H;
    try reflexivity; try discriminate; try (exfalso; now apply H).
Qed.

Lemma Infix_app (t a s b : str) : Infix t s -> Infix t (a ++ s ++ b).
Proof.
  intros [x [y ->]]. exists (a ++ x), (y ++ b).
  now rewrite <- !app_assoc.
Qed.

(** Splitting off what [lstrip_by] and [rstrip_by] remove. *)
Lemma lstrip_by_split (p : ascii -> bool) (s : str) :
  exists a, s = a ++ lstrip_by p s /\ forallb p a = true.
Proof.
  induction s as [|c s [a [H1 H2]]]; simpl.
  - now exists [].
  - destruct (p c) eqn:Hc.
    + exists (c :: a). simpl. rewrite Hc, H2. split; [now f_equal | reflexivity].
    + now exists [].
Qed.

Lemma forallb_rev {A} (f : A -> bool) (l : list A) :
  forallb f (rev l) = forallb f l.
Proof.
  induction l as [|x l IH]; simpl; [reflexivity|].
  rewrite forallb_app, IH. simpl. rewrite andb_true_r. apply andb_comm.
Qed.

Lemma rstrip_by_split (p : ascii -> bool) (s : str) :
  exists b, s = rstrip_by p s ++ b /\ forallb p b = true.
Proof.
  unfold rstrip_by. destruct (lstrip_by_split p (rev s)) as [a [H1 H2]].
  exists (rev a). split.
  - rewrite <- rev_app_distr, <- H1. symmetry. apply rev_involutive.
  - now rewrite forallb_rev.
Qed.

Lemma strip_split (s : str) :
  exists a b, s = a ++ strip s ++ b
              /\ forallb isspace a = true /\ forallb isspace b = true.
Proof.
  unfold strip.
  destruct (lstrip_by_split isspace s) as [a [H1 H2]].
  destruct (rstrip_by_split isspace (lstrip_by isspace s)) as [b [H3 H4]].
  exists a, b. repeat split; try assumption.
  now rewrite <- H3.
Qed.

Lemma strip_Infix (s : str) : Infix (strip s) s.
Proof. destruct (strip_split s) as [a [b [H _]]]. now exists a, b. Qed.

Lemma Infix_cons_space (t s : str) (c : ascii) :
  isspace c = true -> solid t = true -> Infix t (c :: s) -> Infix t s.
Proof.
  intros Hc Ht [a [b H]]. destruct a as [|x a].
  - destruct t as [|y t]; [discriminate Ht|].
    simpl in H. injection H as <- _. simpl in Ht. now rewrite Hc in Ht.
  - simpl in H. injection H as _ ->. now exists a, b.
Qed.

Lemma Infix_snoc_space (t s : str) (c : ascii) :
  isspace c = true -> solid t = true -> Infix t (s ++ [c]) -> Infix t s.
Proof.
  intros Hc Ht [a [b H]]. destruct b as [|x b _] using rev_ind.
  - rewrite app_nil_r in H.
    destruct t as [|y t _] using rev_ind; [discriminate Ht|].
    rewrite app_assoc in H. apply app_inj_tail in H. destruct H as [_ <-].
    assert (Hs : forallb (fun c => negb (isspace c)) (t ++ [c]) = true).
    { unfold solid in Ht. destruct (t ++ [c]); [discriminate Ht | exact Ht]. }
    rewrite forallb_app in Hs. simpl in Hs. rewrite Hc in Hs.
    now rewrite andb_false_r in Hs.
  - rewrite !app_assoc in H. apply app_inj_tail in H. destruct H as [-> _].
    exists a, b. now rewrite app_assoc.
Qed.

Lemma Infix_pad (t a s b : str) :
  forallb isspace a = true -> forallb isspace b = true -> solid t = true ->
  Infix t (a ++ s ++ b) -> Infix t s.
Proof.
  intros Ha Hb Ht. induction a as [|c a IHa].
  - simpl. revert Hb. induction b as [|c b IHb] using rev_ind; intros Hb H.
    + now rewrite app_nil_r in H.
    + rewrite forallb_app in Hb. simpl in Hb.
      apply andb_true_iff in Hb. destruct Hb as [Hb Hc].
      rewrite andb_true_r in Hc. apply IHb; [assumption|].
      rewrite app_assoc in H. now apply Infix_snoc_space in H.
  - simpl in Ha. apply andb_true_iff in Ha. destruct Ha as [Hc Ha].
    intros H. apply IHa; [assumption|].
    simpl in H. now apply Infix_cons_space in H.
Qed.

Lemma forallb_isspace_lower (a : str) :
  forallb isspace (lower a) = forallb isspace a.
Proof.
  induction a as [|c a IH]; simpl; [reflexivity|].
  now rewrite isspace_lower_char, IH.
Qed.

Lemma lower_app (a b : str) : lower (a ++ b) = lower a ++ lower b.
Proof. apply map_app. Qed.

(** A solid text occurs in the lower-cased trimmed text exactly when it
    occurs in the lower-cased text. *)
Lemma Infix_lower_strip (t s : str) :
  solid t = true -> (Infix t (lower (strip s)) <-> Infix t (lower s)).
Proof.
  intros Ht. destruct (strip_split s) as [a [b [H [Ha Hb]]]]. split.
  - intros Hi. rewrite H, !lower_app. now apply Infix_app.
  - intros Hi. rewrite H, !lower_app in Hi.
    apply Infix_pad in Hi; try assumption; now rewrite forallb_isspace_lower.
Qed.

(** ** Counting a character *)

Lemma count_semicolon (s : str) : count (py ";") s = semicolons s.
Proof.
  change (count (py ";") s) with (count_from [";"%char] 0 s).
  unfold semicolons. induction s as [|c s IH]; [reflexivity|].
  cbn [count_from startswith List.length Nat.sub]. rewrite andb_true_r, IH.
  cbn [count_occ]. destruct (ascii_dec c ";") as [->|Hn].
  - reflexivity.
  - destruct (Ascii.eqb_spec ";" c) as [E|_]; [now symmetry in E | reflexivity].
Qed.

Lemma semicolons_app (a b : str) :
  semicolons (a ++ b) = semicolons a + semicolons b.
Proof. apply count_occ_app. Qed.

Lemma semicolons_spaces (a : str) :
  forallb isspace a = true -> semicolons a = 0.
Proof.
  unfold semicolons. induction a as [|c a IH]; [reflexivity|].
  simpl. intros H. apply andb_true_iff in H. destruct H as [Hc Ha].
  destruct (ascii_dec c ";") as [->|_]; [discriminate Hc | now apply IH].
Qed.

Lemma semicolons_lower (s : str) : semicolons (lower s) = semicolons s.
Proof.
  unfold semicolons. induction s as [|c s IH]; [reflexivity|].
  simpl. rewrite IH. pose proof (lower_char_semicolon c) as H.
  destruct (Ascii.eqb_spec (lower_char c) ";") as [E|E],
           (Ascii.eqb_spec c ";") as [F|F]; try discriminate H;
    destruct (ascii_dec (lower_char c) ";"), (ascii_dec c ";");
    congruence.
Qed.

Lemma semicolons_strip (s : str) : semicolons (strip s) = semicolons s.
Proof.
  destruct (strip_split s) as [a [b [H [Ha Hb]]]].
  rewrite H at 2. rewrite !semicolons_app.
  rewrite (semicolons_spaces a Ha), (semicolons_spaces b Hb). lia.
Qed.

Lemma semicolons_contains (s : str) :
  0 < semicolons s -> contains (py ";") s = true.
Proof.
  intros H. apply contains_spec. apply count_occ_In in H.
  apply in_split in H. destruct H as [a [b ->]]. now exists a, b.
Qed.

(** ** The safety gate, rule by rule *)

Lemma forbidden_solid : forallb solid forbidden = true.
Proof. reflexivity. Qed.

Lemma any_forbidden (s : str) :
  any (fun token => contains token (lower (strip s))) forbidden = true
  <-> forbidden_in s.
Proof.
  unfold any, forbidden_in. rewrite existsb_exists.
  pose proof forbidden_solid as Hs. rewrite forallb_forall in Hs.
  split; intros [t [Hin H]]; exists t; (split; [assumption|]).
  - apply contains_spec in H. apply (@Infix_lower_strip t s (Hs t Hin)). exact H.
  - apply contains_spec. apply (@Infix_lower_strip t s (Hs t Hin)). exact H.
Qed.

(** [is_sql_safe] accepts exactly the non-empty texts that pass its three
    rules. *)
Lemma is_sql_safe_spec (sql : str) :
  is_sql_safe sql = true <->
  sql <> []
  /\ Prefix (py "select") (lower (strip sql))
  /\ ~ forbidden_in sql
  /\ semicolons sql <= 1.
Proof.
  unfold is_sql_safe. destruct sql as [|c0 sql0].
  - split; [discriminate | intros [H _]; now elim H].
  - cbv beta iota zeta.
    assert (Hne : c0 :: sql0 <> []) by discriminate.
    remember (c0 :: sql0) as sql eqn:Esql. clear Esql c0 sql0.
    rewrite count_semicolon, semicolons_lower, semicolons_strip.
    rewrite <- startswith_spec, <- any_forbidden.
    destruct (startswith (py "select") (lower (strip sql))); cbn [negb].
    2:{ split; [discriminate | intros [_ [H _]]; discriminate H]. }
    destruct (any (fun token => contains token (lower (strip sql))) forbidden).
    1:{ split; [discriminate | intros [_ [_ [H _]]]; now elim H]. }
    destruct (Nat.ltb_spec 1 (semicolons sql)) as [Hlt|Hle].
    + rewrite semicolons_contains
        by (rewrite semicolons_lower, semicolons_strip; lia).
      cbn [andb]. split; [discriminate | intros [_ [_ [_ H]]]; lia].
    + rewrite andb_false_r. split; [|reflexivity].
      intros _. repeat split; try assumption; discriminate.
Qed.

Lemma forbidden_in_any (s : str) :
  forbidden_in s <->
  any (fun token => contains token (lower s)) forbidden = true.
Proof.
  unfold any, forbidden_in. rewrite existsb_exists.
  split; intros [t [Hin H]]; exists t; (split; [assumption|]);
    now apply contains_spec.
Qed.

(** The two examples of the specification. *)
Example is_sql_safe_rejects_drop :
  is_sql_safe (py "SELECT * FROM sales; DROP TABLE sales;") = false.
Proof. reflexivity. Qed.

Example is_sql_safe_accepts_select :
  is_sql_safe (py "SELECT name FROM customers") = true.
Proof. reflexivity. Qed.

(** C1: a text that is empty, or whose trimmed form does not start with
    select once case is ignored, is rejected by the safety gate. *)
Theorem C1_rejects_non_select (sql : str) :
  sql = [] \/ ~ Prefix (py "select") (lower (strip sql)) ->
  is_sql_safe sql = false.
Proof.
  intros H. destruct (is_sql_safe sql) eqn:E; [|reflexivity].
  apply is_sql_safe_spec in E. destruct E as [Hne [Hp _]].
  destruct H as [H|H]; contradiction.
Qed.

Lemma C1_rejects_non_select_witness :
  ~ Prefix (py "select") (lower (strip (py "  Drop table sales")))
  /\ is_sql_safe (py "  Drop table sales") = false
  /\ is_sql_safe [] = false.
Proof.
  assert (H : ~ Prefix (py "select") (lower (strip (py "  Drop table sales")))).
  { intros [r Hr]. vm_compute in Hr. discriminate Hr. }
  split; [exact H|]. split.
  - apply C1_rejects_non_select. right. exact H.
  - apply C1_rejects_non_select. left. reflexivity.
Defined.

(** C2: a text in which a token of the forbidden set occurs, case ignored,
    is rejected by the safety gate, whatever it starts with. *)
Theorem C2_rejects_forbidden_token (sql token : str) :
  In token forbidden -> Infix token (lower sql) ->
  is_sql_safe sql = false.
Proof.
  intros Hin Hi. destruct (is_sql_safe sql) eqn:E; [|reflexivity].
  apply is_sql_safe_spec in E. destruct E as [_ [_ [Hf _]]].
  elim Hf. now exists token.
Qed.

Lemma C2_rejects_forbidden_token_witness :
  Prefix (py "select") (lower (strip (py "SELECT Updated FROM sales")))
  /\ In (py "update") forbidden
  /\ Infix (py "update") (lower (py "SELECT Updated FROM sales"))
  /\ is_sql_safe (py "SELECT Updated FROM sales") = false.
Proof.
  assert (Hin : In (py "update") forbidden).
  { right. left. reflexivity. }
  assert (Hi : Infix (py "update") (lower (py "SELECT Updated FROM sales"))).
  { exists (py "select "), (py "d from sales"). reflexivity. }
  split; [exists (py " updated from sales"); reflexivity|].
  split; [exact Hin|]. split; [exact Hi|].
  exact (C2_rejects_forbidden_token _ _ Hin Hi).
Defined.

(** C3: a text with two or more semicolons is rejected; a non-empty text
    that starts with select after trimming, holds no forbidden token and
    has at most one semicolon is permitted. *)
Theorem C3_semicolon_rule (sql : str) :
  (2 <= semicolons sql -> is_sql_safe sql = false)
  /\ (sql <> [] ->
      Prefix (py "select") (lower (strip sql)) ->
      ~ forbidden_in sql ->
      semicolons sql <= 1 ->
      is_sql_safe sql = true).
Proof.
  split.
  - intros H. destruct (is_sql_safe sql) eqn:E; [|reflexivity].
    apply is_sql_safe_spec in E. destruct E as [_ [_ [_ Hs]]]. lia.
  - intros H1 H2 H3 H4. apply is_sql_safe_spec. repeat split; assumption.
Qed.

Lemma C3_semicolon_rule_witness :
  (2 <= semicolons (py "select 1; select 2;")
   /\ is_sql_safe (py "select 1; select 2;") = false)
  /\ (semicolons (py " Select name FROM customers; ") <= 1
      /\ is_sql_safe (py " Select name FROM customers; ") = true).
Proof.
  split; split.
  - vm_compute. lia.
  - apply (proj1 (C3_semicolon_rule (py "select 1; select 2;"))).
    vm_compute. lia.
  - vm_compute. lia.
  - apply (proj2 (C3_semicolon_rule (py " Select name FROM customers; "))).
    + discriminate.
    + exists (py " name from customers;"). reflexivity.
    + intros H. apply forbidden_in_any in H. vm_compute in H. discriminate H.
    + vm_compute. lia.
Defined.

(** ** Join repair *)

Lemma sub_first_cases (m : str -> option nat) (repl s : str) :
  Re.sub_first m repl s = s
  \/ exists pre post, Re.sub_first m repl s = pre ++ repl ++ post.
Proof.
  induction s as [|c s IH]; [now left|].
  cbn [Re.sub_first]. destruct (m (c :: s)) as [n|].
  - right. now exists [], (skipn n (c :: s)).
  - destruct IH as [->|[pre [post ->]]]; [now left|].
    right. now exists (c :: pre), post.
Qed.

(** A query in which a join to products is already written is returned
    as it is. *)
Lemma auto_fix_joins_joined (sql : str) :
  contains (py "join products") (lower sql) = true
  \/ contains (py "join customers") (lower sql) = true ->
  _auto_fix_joins sql = sql.
Proof.
  intros H. unfold _auto_fix_joins.
  assert (E : contains (py "join products") (lower sql)
              || contains (py "join customers") (lower sql) = true).
  { apply orb_true_iff. exact H. }
  rewrite E. now destruct (_ && _).
Qed.

Lemma replacement_joins :
  Infix (py "join products") (lower replacement).
Proof. apply contains_spec. reflexivity. Qed.

(** The repair either leaves the query alone or writes a join to products
    into it. *)
Lemma auto_fix_joins_cases (sql : str) :
  _auto_fix_joins sql = sql
  \/ contains (py "join products") (lower (_auto_fix_joins sql)) = true.
Proof.
  unfold _auto_fix_joins.
  destruct (_ && _); [|now left].
  destruct (_ || _); [now left|].
  destruct (sub_first_cases Re.from_sales_at replacement sql)
    as [->|[pre [post ->]]]; [now left|].
  right. apply contains_spec. rewrite !lower_app.
  apply Infix_app. exact replacement_joins.
Qed.

(** Join repair is idempotent on every query. *)
Lemma auto_fix_joins_idempotent (sql : str) :
  _auto_fix_joins (_auto_fix_joins sql) = _auto_fix_joins sql.
Proof.
  destruct (auto_fix_joins_cases sql) as [H|H].
  - now rewrite H.
  - apply auto_fix_joins_joined. now left.
Qed.

(** C6: on the example query the clause FROM sales is replaced by the
    three-way aliased join block, which lands before GROUP BY; the text
    before and after the clause is kept as it is. *)
Theorem C6_join_repair_example :
  _auto_fix_joins
    (py "SELECT product_name, SUM(quantity) FROM sales GROUP BY product_name")
  = py "SELECT product_name, SUM(quantity) " ++ replacement
    ++ py " GROUP BY product_name"
  /\ replacement
     = py "FROM sales s" ++ nl
       ++ py "LEFT JOIN products p ON s.product_id = p.product_id" ++ nl
       ++ py "LEFT JOIN customers c ON s.customer_id = c.customer_id"
  /\ py "SELECT product_name, SUM(quantity) FROM sales GROUP BY product_name"
     = py "SELECT product_name, SUM(quantity) " ++ py "FROM sales"
       ++ py " GROUP BY product_name".
Proof. repeat split; reflexivity. Qed.

(** C9: on a query that already contains a join, join repair applied
    twice gives what it gives applied once; when the join is one to
    products or to customers the query is not changed at all. *)
Theorem C9_join_repair_idempotent (sql : str) :
  Infix (py "join") (lower sql) ->
  _auto_fix_joins (_auto_fix_joins sql) = _auto_fix_joins sql
  /\ (Infix (py "join products") (lower sql)
      \/ Infix (py "join customers") (lower sql) ->
      _auto_fix_joins sql = sql).
Proof.
  intros _. split.
  - apply auto_fix_joins_idempotent.
  - intros H. apply auto_fix_joins_joined.
    destruct H as [H|H]; [left | right]; now apply contains_spec.
Qed.

Lemma C9_join_repair_idempotent_witness :
  Infix (py "join")
    (lower (py "SELECT product_name FROM sales JOIN stock ON 1 = 1"))
  /\ _auto_fix_joins
       (_auto_fix_joins
          (py "SELECT product_name FROM sales JOIN stock ON 1 = 1"))
     = _auto_fix_joins
         (py "SELECT product_name FROM sales JOIN stock ON 1 = 1")
  /\ _auto_fix_joins
       (py "SELECT product_name FROM sales JOIN stock ON 1 = 1")
     <> py "SELECT product_name FROM sales JOIN stock ON 1 = 1".
Proof.
  assert (H : Infix (py "join")
    (lower (py "SELECT product_name FROM sales JOIN stock ON 1 = 1"))).
  { apply contains_spec. reflexivity. }
  split; [exact H|]. split.
  - exact (proj1 (C9_join_repair_idempotent _ H)).
  - vm_compute. discriminate.
Defined.

(** ** Trimming twice *)

Lemma lstrip_by_head (p : ascii -> bool) (s : str) :
  lstrip_by p s = []
  \/ exists c r, lstrip_by p s = c :: r /\ p c = false.
Proof.
  induction s as [|c s IH]; simpl; [now left|].
  destruct (p c) eqn:Hc; [exact IH|]. right. now exists c, s.
Qed.

Lemma lstrip_by_snoc (p : ascii -> bool) (s : str) (c : ascii) :
  p c = false -> lstrip_by p (s ++ [c]) = lstrip_by p s ++ [c].
Proof.
  intros Hc. induction s as [|x s IH]; simpl.
  - now rewrite Hc.
  - destruct (p x); [exact IH | reflexivity].
Qed.

Lemma rstrip_by_cons (p : ascii -> bool) (s : str) (c : ascii) :
  p c = false -> rstrip_by p (c :: s) = c :: rstrip_by p s.
Proof.
  intros Hc. unfold rstrip_by. simpl.
  now rewrite lstrip_by_snoc, rev_app_distr.
Qed.

Lemma lstrip_by_idem (p : ascii -> bool) (s : str) :
  lstrip_by p (lstrip_by p s) = lstrip_by p s.
Proof.
  destruct (lstrip_by_head p s) as [->|[c [r [-> Hc]]]]; [reflexivity|].
  simpl. now rewrite Hc.
Qed.

Lemma rstrip_by_idem (p : ascii -> bool) (s : str) :
  rstrip_by p (rstrip_by p s) = rstrip_by p s.
Proof.
  unfold rstrip_by. now rewrite rev_involutive, lstrip_by_idem.
Qed.

Lemma strip_idem (s : str) : strip (strip s) = strip s.
Proof.
  unfold strip.
  destruct (lstrip_by_head isspace s) as [->|[c [r [-> Hc]]]]; [reflexivity|].
  rewrite (rstrip_by_cons isspace r c Hc). cbn [lstrip_by]. rewrite Hc.
  rewrite <- (rstrip_by_cons isspace r c Hc). apply rstrip_by_idem.
Qed.

Lemma Infix_app_l (t a s : str) : Infix t s -> Infix t (a ++ s).
Proof.
  intros H. apply (Infix_app t a s []) in H. now rewrite app_nil_r in H.
Qed.

Lemma Infix_trans (t u s : str) : Infix t u -> Infix u s -> Infix t s.
Proof. intros H [a [b ->]]. now apply Infix_app. Qed.

(** ** Matchers *)

Lemma sub_no_match (m : str -> option nat) (repl s : str) :
  (forall pre suf, s = pre ++ suf -> m suf = None) ->
  Re.sub m repl s = s.
Proof.
  unfold Re.sub. induction s as [|c s IH]; intros H; [reflexivity|].
  cbn [Re.sub_from]. rewrite (H [] (c :: s) eq_refl). f_equal.
  apply IH. intros pre suf ->. now apply (H (c :: pre)).
Qed.

Lemma fence_at_none (s : str) :
  startswith (py "```") s = false -> Re.fence_at s = None.
Proof.
  unfold Re.fence_at.
  destruct s as [|a [|b [|c r]]]; cbn [Re.lit_ci py list_ascii_of_string startswith];
    rewrite ?lower_char_backquote;
    repeat match goal with
           | |- context [Ascii.eqb "`" ?x] => destruct (Ascii.eqb "`" x)
           end; try reflexivity; discriminate.
Qed.

Lemma sub_fence_none (s : str) :
  ~ Infix (py "```") s -> Re.sub Re.fence_at [] s = s.
Proof.
  intros H. apply sub_no_match. intros pre suf ->. apply fence_at_none.
  destruct (startswith (py "```") suf) eqn:E; [|reflexivity].
  elim H. apply startswith_spec in E. destruct E as [r ->]. now exists pre, r.
Qed.

(** What [lit_ci] finds at the head of a text. *)
Lemma lit_ci_spec (p s r : str) :
  Re.lit_ci p s = Some r <-> exists w, s = w ++ r /\ lower w = p.
Proof.
  revert s. induction p as [|a p IH]; intros s.
  - simpl. split.
    + intros [= ->]. now exists [].
    + intros [w [-> Hw]]. destruct w; [reflexivity | discriminate Hw].
  - destruct s as [|c s]; cbn [Re.lit_ci].
    + split; [discriminate|]. intros [w [Hs Hw]].
      destruct w; [discriminate Hw | discriminate Hs].
    + destruct (Ascii.eqb_spec (lower_char c) a) as [E|E].
      * rewrite IH. split.
        -- intros [w [-> Hw]]. exists (c :: w). simpl. now rewrite E, Hw.
        -- intros [w [Hs Hw]]. destruct w as [|x w]; [discriminate Hw|].
           simpl in Hs, Hw. injection Hs as <- ->. injection Hw as _ Hw.
           now exists w.
      * split; [discriminate|]. intros [w [Hs Hw]].
        destruct w as [|x w]; [discriminate Hw|].
        simpl in Hs, Hw. injection Hs as <- _. injection Hw as Hx _.
        contradiction.
Qed.

Lemma select_at_spec (s : str) : Re.select_at s = true <-> SelectWord s.
Proof.
  unfold Re.select_at, SelectWord. split.
  - destruct (Re.lit_ci (py "select") s) as [r|] eqn:E; [|discriminate].
    apply lit_ci_spec in E. destruct E as [w [-> Hw]]. intros Hb.
    exists w, r. repeat split; try assumption.
    destruct r as [|c r]; [now left|]. right. exists c, r.
    split; [reflexivity|]. simpl in Hb. now destruct (isword c).
  - intros [w [rest [-> [Hw Hb]]]].
    assert (E : Re.lit_ci (py "select") (w ++ rest) = Some rest).
    { apply lit_ci_spec. now exists w. }
    rewrite E. destruct Hb as [->|[c [r [-> Hc]]]]; [reflexivity|].
    simpl. now rewrite Hc.
Qed.

(** [search_select] returns the leftmost place where the word stands. *)
Lemma search_select_some (s g : str) :
  Re.search_select s = Some g ->
  exists pre,
    s = pre ++ g /\ Re.select_at g = true
    /\ forall p1 p2, pre = p1 ++ p2 -> p2 <> [] ->
                     Re.select_at (p2 ++ g) = false.
Proof.
  induction s as [|c s IH].
  - cbn. discriminate.
  - cbn [Re.search_select]. destruct (Re.select_at (c :: s)) eqn:E.
    + intros [= <-]. exists []. repeat split; [assumption|].
      intros p1 p2 H Hne. symmetry in H. apply app_eq_nil in H.
      destruct H as [_ ->]. now elim Hne.
    + intros H. destruct (IH H) as [pre [-> [Hg Hl]]].
      exists (c :: pre). repeat split; [assumption|].
      intros p1 p2 Hp Hne. destruct p1 as [|x p1].
      * simpl in Hp. subst p2. exact E.
      * simpl in Hp. injection Hp as _ Hp. now apply (Hl p1).
Qed.

Lemma search_select_none (s : str) :
  Re.search_select s = None ->
  forall pre suf, s = pre ++ suf -> Re.select_at suf = false.
Proof.
  induction s as [|c s IH].
  - intros _ pre suf H. symmetry in H. apply app_eq_nil in H.
    destruct H as [_ ->]. reflexivity.
  - cbn [Re.search_select]. destruct (Re.select_at (c :: s)) eqn:E;
      [discriminate|].
    intros H pre suf Hs. destruct pre as [|x pre].
    + simpl in Hs. now subst suf.
    + simpl in Hs. injection Hs as _ Hs. now apply (IH H pre).
Qed.

Lemma search_select_all_none (s : str) :
  (forall pre suf, s = pre ++ suf -> Re.select_at suf = false) ->
  Re.search_select s = None.
Proof.
  intros H. destruct (Re.search_select s) as [g|] eqn:E; [|reflexivity].
  apply search_select_some in E. destruct E as [pre [Hs [Hg _]]].
  now rewrite (H pre g Hs) in Hg.
Qed.

(** ** The SQL cleaner *)

Lemma clean_model_sql_unfold (raw : str) :
  raw <> [] ->
  _clean_model_sql raw =
  match Re.search_select (fence_stripped raw) with
  | Some candidate => strip candidate
  | None => fence_stripped raw
  end.
Proof. destruct raw; [intros H; now elim H | reflexivity]. Qed.

Lemma fence_stripped_nil : fence_stripped [] = [].
Proof. reflexivity. Qed.

Lemma fence_stripped_no_fence (raw : str) :
  ~ Infix (py "```") raw -> fence_stripped raw = strip raw.
Proof.
  intros H. unfold fence_stripped. rewrite sub_fence_none.
  - apply strip_idem.
  - intros Hi. apply H. exact (Infix_trans _ _ _ Hi (strip_Infix raw)).
Qed.

(** ** No fence marker survives the substitution *)

Lemma sub_from_skip (m : str -> option nat) (repl : str) (k : nat) (s : str) :
  Re.sub_from m repl k s = Re.sub_from m repl 0 (skipn k s).
Proof.
  revert k. induction s as [|c r IH]; intros k.
  - now destruct k.
  - destruct k as [|k]; [reflexivity|]. cbn [Re.sub_from skipn]. apply IH.
Qed.

Lemma fence_at_cases (s : str) :
  (Re.fence_at s = None /\ startswith (py "```") s = false)
  \/ (exists n, Re.fence_at s = Some (S n)
                /\ startswith (py "```") s = true).
Proof.
  unfold Re.fence_at.
  destruct s as [|a [|b [|c r]]];
    cbn [Re.lit_ci py list_ascii_of_string startswith];
    rewrite ?lower_char_backquote;
    repeat match goal with
           | |- context [Ascii.eqb "`" ?x] => destruct (Ascii.eqb "`" x)
           end; cbn [andb]; try (left; split; reflexivity).
  right.
  match goal with
  | |- context [match ?x with Some _ => _ | None => _ end] => destruct x
  end; eexists; split; reflexivity.
Qed.

Lemma sub_fence_step (s : str) :
  Re.sub Re.fence_at [] s =
  match Re.fence_at s, s with
  | Some (S n), _ :: r => Re.sub Re.fence_at [] (skipn n r)
  | _, c :: r => c :: Re.sub Re.fence_at [] r
  | _, [] => []
  end.
Proof.
  unfold Re.sub. destruct s as [|c r]; [reflexivity|].
  cbn [Re.sub_from]. destruct (Re.fence_at (c :: r)) as [[|n]|];
    try reflexivity.
  cbn [app]. apply sub_from_skip.
Qed.

Lemma sub_fence_clean_upto (n : nat) (s : str) :
  List.length s <= n ->
  contains (py "```") (Re.sub Re.fence_at [] s) = false.
Proof.
  revert s. induction n as [|n IH]; intros s Hn.
  - destruct s; [reflexivity | simpl in Hn; lia].
  - rewrite sub_fence_step.
    destruct (fence_at_cases s) as [[E Hs]|[k [E Hs]]]; rewrite E.
    + destruct s as [|c r]; [reflexivity|]. simpl in Hn.
      cbn [contains]. rewrite (IH r) by lia. rewrite orb_false_r.
      rewrite (sub_fence_step r).
      destruct (fence_at_cases r) as [[Er Hr]|[j [Er Hr]]]; rewrite Er.
      * destruct r as [|x r1]; [exact Hs|].
        rewrite (sub_fence_step r1).
        destruct (fence_at_cases r1) as [[E1 H1]|[j [E1 H1]]]; rewrite E1.
        -- destruct r1 as [|y r2]; exact Hs.
        -- destruct r1 as [|y r2]; [discriminate H1|].
           clear IH E Er E1. backquotes.
      * destruct r as [|x [|y r2]]; clear IH E Er; backquotes.
    + destruct s as [|c r]; [discriminate Hs|]. simpl in Hn.
      apply IH. rewrite length_skipn. lia.
Qed.

(** The fence-stripped text holds no fence marker. *)
Lemma fence_stripped_clean (raw : str) :
  ~ Infix (py "```") (fence_stripped raw).
Proof.
  intros H. unfold fence_stripped in H.
  apply (fun H => Infix_trans _ _ _ H (strip_Infix _)) in H.
  apply contains_spec in H.
  now rewrite (sub_fence_clean_upto (List.length (strip raw)) _ (le_n _)) in H.
Qed.

Lemma C7_counterexample :
  ~ (forall raw suf : str,
        spec_first_select (fence_stripped raw) = Some suf ->
        _clean_model_sql raw = strip suf).
Proof.
  intros H.
  specialize (H (py "selection: SELECT 1") (py "selection: SELECT 1") eq_refl).
  vm_compute in H. discriminate H.
Qed.

(** C7 (amended): when the word select, case ignored and ending at a word
    boundary, occurs in the fence-stripped text, the cleaner returns the
    text from the first such occurrence to the end, trimmed; the fenced
    example with leading commentary yields exactly the statement. *)
Theorem C7_cleaner_from_first_select_word :
  (forall raw : str,
      (exists pre suf, fence_stripped raw = pre ++ suf /\ SelectWord suf) ->
      exists pre suf,
        fence_stripped raw = pre ++ suf
        /\ SelectWord suf
        /\ (forall p1 p2, pre = p1 ++ p2 -> p2 <> [] ->
                          ~ SelectWord (p2 ++ suf))
        /\ _clean_model_sql raw = strip suf
        /\ ~ Infix (py "```") (_clean_model_sql raw))
  /\ _clean_model_sql
       (py "Here is the query:" ++ nl ++ py "```sql" ++ nl
        ++ py "SELECT * FROM sales" ++ nl ++ py "```")
     = py "SELECT * FROM sales".
Proof.
  split; [|reflexivity].
  intros raw [pre0 [suf0 [H0 Hw0]]].
  assert (Hne : raw <> []).
  { intros ->. rewrite fence_stripped_nil in H0. symmetry in H0.
    apply app_eq_nil in H0. destruct H0 as [_ ->].
    apply select_at_spec in Hw0. discriminate Hw0. }
  rewrite (clean_model_sql_unfold raw Hne).
  destruct (Re.search_select (fence_stripped raw)) as [g|] eqn:E.
  - apply search_select_some in E. destruct E as [pre [Hs [Hg Hl]]].
    exists pre, g. split; [assumption|]. split; [now apply select_at_spec|].
    split; [|split; [reflexivity|]].
    + intros p1 p2 Hp Hp2 Hsel. apply select_at_spec in Hsel.
      now rewrite (Hl p1 p2 Hp Hp2) in Hsel.
    + intros Hi. apply (fence_stripped_clean raw). rewrite Hs.
      apply Infix_app_l. exact (Infix_trans _ _ _ Hi (strip_Infix g)).
  - apply select_at_spec in Hw0.
    now rewrite (search_select_none _ E pre0 suf0 H0) in Hw0.
Qed.

Lemma C7_cleaner_from_first_select_word_witness :
  exists pre suf,
    fence_stripped (py "Note: selected rows. ```sql SELECT 1; ```")
    = pre ++ suf
    /\ SelectWord suf
    /\ (forall p1 p2, pre = p1 ++ p2 -> p2 <> [] -> ~ SelectWord (p2 ++ suf))
    /\ _clean_model_sql (py "Note: selected rows. ```sql SELECT 1; ```")
       = strip suf
    /\ ~ Infix (py "```")
         (_clean_model_sql (py "Note: selected rows. ```sql SELECT 1; ```")).
Proof.
  apply (proj1 C7_cleaner_from_first_select_word).
  exists (py "Note: selected rows.  "), (py "SELECT 1;"). split.
  - reflexivity.
  - apply select_at_spec. reflexivity.
Defined.

Lemma C8_counterexample :
  ~ (forall raw : str,
        raw <> [] -> ~ Infix (py "select") (lower raw) ->
        _clean_model_sql raw = strip raw).
Proof.
  intros H. specialize (H (py "```hello```")).
  assert (E : _clean_model_sql (py "```hello```") = strip (py "```hello```")).
  { apply H; [discriminate|]. apply contains_false. reflexivity. }
  vm_compute in E. discriminate E.
Qed.

(** C8 (amended): for a non-empty input in whose fence-stripped text the
    word select, case ignored and ending at a word boundary, does not
    occur, the cleaner returns the fence-stripped text: the trimmed input
    with its fence markers removed, trimmed again.  For an input without
    fence markers this is the trimmed input unchanged. *)
Theorem C8_cleaner_without_select (raw : str) :
  raw <> [] ->
  (forall pre suf, fence_stripped raw = pre ++ suf -> ~ SelectWord suf) ->
  _clean_model_sql raw = fence_stripped raw
  /\ (~ Infix (py "```") raw -> _clean_model_sql raw = strip raw).
Proof.
  intros Hne Hno.
  assert (E : _clean_model_sql raw = fence_stripped raw).
  { rewrite (clean_model_sql_unfold raw Hne).
    rewrite search_select_all_none; [reflexivity|].
    intros pre suf Hs. destruct (Re.select_at suf) eqn:Hsel; [|reflexivity].
    apply select_at_spec in Hsel. now elim (Hno pre suf Hs). }
  split; [exact E|].
  intros Hf. rewrite E. now apply fence_stripped_no_fence.
Qed.

Lemma C8_cleaner_without_select_witness :
  _clean_model_sql (py " ```text I selected nothing``` ")
  = py "text I selected nothing"
  /\ _clean_model_sql (py " I selected nothing ") = py "I selected nothing".
Proof.
  assert (Hno : forall raw,
             Re.search_select (fence_stripped raw) = None ->
             forall pre suf, fence_stripped raw = pre ++ suf ->
                             ~ SelectWord suf).
  { intros raw E pre suf H Hsel. apply select_at_spec in Hsel.
    rewrite (search_select_none _ E pre suf H) in Hsel. discriminate Hsel. }
  assert (H1 : py " ```text I selected nothing``` " <> []) by discriminate.
  assert (H2 : py " I selected nothing " <> []) by discriminate.
  assert (H3 : ~ Infix (py "```") (py " I selected nothing ")).
  { apply contains_false. reflexivity. }
  split.
  - exact (proj1 (C8_cleaner_without_select
                    (py " ```text I selected nothing``` ") H1
                    (Hno (py " ```text I selected nothing``` ") eq_refl))).
  - exact (proj2 (C8_cleaner_without_select
                    (py " I selected nothing ") H2
                    (Hno (py " I selected nothing ") eq_refl)) H3).
Defined.

(** ** A semicolon between two statements *)

Lemma prefix_before (t b x y : str) (c : ascii) :
  t ++ b = x ++ c :: y -> ~ In c t -> exists x2, x = t ++ x2.
Proof.
  revert x. induction t as [|t0 t IH]; intros x H Hc.
  - now exists x.
  - destruct x as [|x0 x]; simpl in H; injection H as -> H.
    + elim Hc. now left.
    + destruct (IH x H) as [x2 ->]; [intros Hi; apply Hc; now right|].
      now exists x2.
Qed.

(** A text in which [c] does not occur lies on one side of [c]. *)
Lemma Infix_split (t x y : str) (c : ascii) :
  ~ In c t -> Infix t (x ++ c :: y) -> Infix t x \/ Infix t y.
Proof.
  intros Hc [a [b H]]. revert a H. induction x as [|x0 x IH]; intros a H.
  - destruct a as [|a0 a]; simpl in H.
    + destruct t as [|t0 t]; [left; now exists [], [] |].
      simpl in H. injection H as -> _. elim Hc. now left.
    + injection H as _ ->. right. now exists a, b.
  - destruct a as [|a0 a].
    + symmetry in H. simpl in H.
      destruct (prefix_before t b (x0 :: x) y c H Hc) as [x2 Hx].
      left. exists [], x2. exact Hx.
    + simpl in H. injection H as _ H.
      destruct (IH a H) as [[u [v ->]]|Hy]; [left | now right].
      now exists (x0 :: u), v.
Qed.

Lemma lstrip_by_app (p : ascii -> bool) (a x : str) :
  lstrip_by p a <> [] -> lstrip_by p (a ++ x) = lstrip_by p a ++ x.
Proof.
  induction a as [|c a IH]; simpl; intros H; [now elim H|].
  destruct (p c); [now apply IH | reflexivity].
Qed.

Lemma rstrip_by_mid (p : ascii -> bool) (u b : str) (c : ascii) :
  p c = false -> rstrip_by p (u ++ c :: b) = u ++ c :: rstrip_by p b.
Proof.
  intros Hc. unfold rstrip_by.
  rewrite rev_app_distr. simpl. rewrite <- app_assoc.
  rewrite app_assoc, lstrip_by_app.
  - rewrite lstrip_by_snoc by assumption.
    rewrite !rev_app_distr, rev_involutive. reflexivity.
  - rewrite lstrip_by_snoc by assumption. now destruct (lstrip_by p (rev b)).
Qed.

Lemma strip_joined (a b : str) :
  lstrip_by isspace a <> [] ->
  strip (a ++ py ";" ++ b)
  = lstrip_by isspace a ++ py ";" ++ rstrip_by isspace b.
Proof.
  intros H. unfold strip. rewrite (lstrip_by_app isspace a _ H).
  now apply rstrip_by_mid.
Qed.

Lemma Prefix_app (p x y : str) : Prefix p x -> Prefix p (x ++ y).
Proof. intros [r ->]. exists (r ++ y). now rewrite app_assoc. Qed.

(** Every forbidden token holds a forbidden token free of semicolons. *)
Lemma forbidden_cores :
  forallb
    (fun t =>
       existsb
         (fun t' => contains t' t && negb (existsb (Ascii.eqb ";") t'))
         forbidden)
    forbidden = true.
Proof. reflexivity. Qed.

Lemma forbidden_core (t : str) :
  In t forbidden ->
  exists t', In t' forbidden /\ Infix t' t /\ ~ In ";"%char t'.
Proof.
  intros Hin. pose proof forbidden_cores as H.
  rewrite forallb_forall in H. specialize (H t Hin).
  apply existsb_exists in H. destruct H as [t' [Hin' H]].
  apply andb_true_iff in H. destruct H as [Hc Hn].
  exists t'. repeat split; [assumption | now apply contains_spec |].
  intros Hi. apply negb_true_iff in Hn.
  assert (E : existsb (Ascii.eqb ";") t' = true).
  { apply existsb_exists. exists ";"%char. split; [assumption | reflexivity]. }
  now rewrite E in Hn.
Qed.

(** Two texts without semicolons, the first accepted by the gate and the
    second free of forbidden tokens, are accepted once joined by a
    semicolon. *)
Lemma joined_statements_pass (a b : str) :
  is_sql_safe a = true -> semicolons a = 0 ->
  ~ forbidden_in b -> semicolons b = 0 ->
  is_sql_safe (a ++ py ";" ++ b) = true.
Proof.
  intros Ha Hsa Hfb Hsb. apply is_sql_safe_spec in Ha.
  destruct Ha as [_ [Hp [Hfa _]]]. apply is_sql_safe_spec.
  assert (Hl : lstrip_by isspace a <> []).
  { intros E. unfold strip in Hp. rewrite E in Hp.
    destruct Hp as [r Hr]. discriminate Hr. }
  split; [|split; [|split]].
  - destruct a; discriminate.
  - rewrite (strip_joined a b Hl).
    destruct (rstrip_by_split isspace (lstrip_by isspace a)) as [sp [E _]].
    rewrite E. fold (strip a). rewrite <- !app_assoc, lower_app.
    now apply Prefix_app.
  - intros [t [Hin Hi]].
    destruct (forbidden_core t Hin) as [t' [Hin' [Hi' Hn]]].
    pose proof (Infix_trans _ _ _ Hi' Hi) as H.
    rewrite lower_app in H. change (lower (py ";" ++ b))
      with (";"%char :: lower b) in H.
    apply Infix_split in H; [|assumption].
    destruct H as [H|H]; [apply Hfa | apply Hfb]; now exists t'.
  - rewrite semicolons_app, Hsa. change (py ";" ++ b) with (";"%char :: b).
    unfold semicolons in *. cbn [count_occ].
    destruct (ascii_dec ";" ";"); [lia | congruence].
Qed.

(** C10: the text made of two select statements joined by one interior
    semicolon passes the safety gate.  The gate bounds the number of
    semicolons and never looks at where the semicolon stands: any two
    statements it accepts, neither with a semicolon, are accepted when
    joined by one. *)
Theorem C10_interior_semicolon_passes :
  (exists first second : str,
      first = py "select * from sales"
      /\ second = py " select * from customers"
      /\ is_sql_safe first = true
      /\ is_sql_safe second = true
      /\ semicolons (first ++ py ";" ++ second) = 1
      /\ first ++ py ";" ++ second
         = py "select * from sales; select * from customers"
      /\ is_sql_safe (first ++ py ";" ++ second) = true)
  /\ (forall a b : str,
         is_sql_safe a = true -> semicolons a = 0 ->
         is_sql_safe b = true -> semicolons b = 0 ->
         semicolons (a ++ py ";" ++ b) = 1
         /\ is_sql_safe (a ++ py ";" ++ b) = true).
Proof.
  split.
  - exists (py "select * from sales"), (py " select * from customers").
    repeat split; reflexivity.
  - intros a b Ha Hsa Hb Hsb. split.
    + rewrite semicolons_app, Hsa. change (py ";" ++ b) with (";"%char :: b).
      unfold semicolons in *. cbn [count_occ].
      destruct (ascii_dec ";" ";"); [lia | congruence].
    + apply joined_statements_pass; try assumption.
      apply is_sql_safe_spec in Hb. tauto.
Qed.

Lemma C10_interior_semicolon_passes_witness :
  semicolons (py "SELECT 1" ++ py ";" ++ py " select name from customers") = 1
  /\ is_sql_safe
       (py "SELECT 1" ++ py ";" ++ py " select name from customers") = true.
Proof.
  apply (proj2 C10_interior_semicolon_passes); reflexivity.
Defined.

(** ** The execution engine *)

Section ExecProps.

Import Exec.

Variables Store DataFrame : Type.
Variable sqlite_connect : Store -> option str.
Variable read_sql_query : str -> Store -> (str + DataFrame) * Store.

Local Abbreviation run := (run_sql sqlite_connect read_sql_query).

Lemma set_state_last (l : list conn_state) (v : conn_state) :
  set_state (List.length l) Closed (l ++ [v]) = l ++ [Closed].
Proof. induction l as [|x l IH]; simpl; [reflexivity | now rewrite IH]. Qed.

Lemma open_count_closed (l : list conn_state) :
  open_count (l ++ [Closed]) = open_count l.
Proof.
  unfold open_count. rewrite filter_app, length_app. simpl. lia.
Qed.

(** What [run_sql] does on a statement the gate lets through, by the
    answer of the driver. *)
Lemma run_sql_safe (sql : str) (w : World Store) :
  is_sql_safe sql = true ->
  run sql w =
  match sqlite_connect (store w) with
  | Some msg => (Raise (DriverError msg), w)
  | None =>
      let c := List.length (conns w) in
      let q := rstrip_chars (py ";") (strip sql) in
      let w' st :=
        mkWorld st (conns w ++ [Closed])
                (trace w ++ [EvConnect c; EvQuery c q; EvClose c]) in
      match read_sql_query q (store w) with
      | (inl msg, st) =>
          (Raise (Exception (py "SQL execution error: " ++ msg)), w' st)
      | (inr df, st) => (Ret df, w' st)
      end
  end.
Proof.
  intros Hsafe. unfold run_sql. rewrite Hsafe. cbn [negb].
  unfold bind, connect. destruct (sqlite_connect (store w)); [reflexivity|].
  unfold try_except, pd_read_sql_query. cbn [store conns trace].
  destruct (read_sql_query _ (store w)) as [[msg|df] st];
    unfold close, raise, ret; cbn [store conns trace exn_text];
    rewrite set_state_last, <- !app_assoc; reflexivity.
Qed.

Lemma run_sql_unsafe (sql : str) (w : World Store) :
  is_sql_safe sql = false ->
  run sql w = (Raise (Exception blocked_message), w).
Proof. intros H. unfold run_sql. now rewrite H. Qed.

(** C4: on a text the safety gate rejects, [run_sql] raises its failure
    at once: the world is the one it started in, so no connection was
    opened, no statement reached the driver and the store is untouched. *)
Theorem C4_blocked_before_execution (sql : str) (w : World Store) :
  is_sql_safe sql = false ->
  exists w',
    run sql w = (Raise (Exception blocked_message), w')
    /\ conns w' = conns w /\ trace w' = trace w /\ store w' = store w
    /\ w' = w.
Proof.
  intros H. exists w. rewrite (run_sql_unsafe sql w H). repeat split.
Qed.

(** C5: on a statement the gate lets through and the driver fails,
    [run_sql] closes the connection it opened and raises a failure that
    carries the error text of the driver; on success it closes the
    connection as well; whatever happens, no more connections are open
    after [run_sql] than before. *)
Theorem C5_connection_released :
  (forall (sql : str) (w : World Store),
      is_sql_safe sql = true ->
      sqlite_connect (store w) = None ->
      let c := List.length (conns w) in
      let q := rstrip_chars (py ";") (strip sql) in
      let w' st :=
        mkWorld st (conns w ++ [Closed])
                (trace w ++ [EvConnect c; EvQuery c q; EvClose c]) in
      (forall msg st,
          read_sql_query q (store w) = (inl msg, st) ->
          run sql w
          = (Raise (Exception (py "SQL execution error: " ++ msg)), w' st))
      /\ (forall df st,
             read_sql_query q (store w) = (inr df, st) ->
             run sql w = (Ret df, w' st)))
  /\ (forall (sql : str) (w : World Store),
         open_count (conns (snd (run sql w))) = open_count (conns w)).
Proof.
  split.
  - intros sql w Hsafe Hconn c q w'.
    pose proof (run_sql_safe sql w Hsafe) as E. rewrite Hconn in E.
    cbv zeta in E. fold c q in E.
    split; intros x st Hr; rewrite E; subst q; rewrite Hr; reflexivity.
  - intros sql w. destruct (is_sql_safe sql) eqn:Hsafe.
    + rewrite (run_sql_safe sql w Hsafe).
      destruct (sqlite_connect (store w)); [reflexivity|].
      cbv zeta. destruct (read_sql_query _ (store w)) as [[msg|df] st];
        cbn [snd conns]; apply open_count_closed.
    + now rewrite (run_sql_unsafe sql w Hsafe).
Qed.

End ExecProps.

Lemma C4_blocked_before_execution_witness :
  is_sql_safe (py "SELECT * FROM sales; DROP TABLE sales;") = false
  /\ exists w',
      Exec.run_sql Exec.demo_connect Exec.demo_read
        (py "SELECT * FROM sales; DROP TABLE sales;") Exec.demo_world
      = (Exec.Raise (Exec.Exception Exec.blocked_message), w')
      /\ Exec.conns w' = Exec.conns Exec.demo_world
      /\ Exec.trace w' = Exec.trace Exec.demo_world
      /\ Exec.store w' = Exec.store Exec.demo_world
      /\ w' = Exec.demo_world.
Proof.
  split; [reflexivity|].
  apply C4_blocked_before_execution. reflexivity.
Defined.

Lemma C5_connection_released_witness :
  Exec.run_sql Exec.demo_connect Exec.demo_read
    (py "SELECT no_such_column FROM sales;") Exec.demo_world
  = (Exec.Raise
       (Exec.Exception
          (py "SQL execution error: no such column: no_such_column")),
     Exec.mkWorld 1 [Exec.Closed; Exec.Open; Exec.Closed]
       [Exec.EvConnect 2;
        Exec.EvQuery 2 (py "SELECT no_such_column FROM sales");
        Exec.EvClose 2])
  /\ Exec.run_sql Exec.demo_connect Exec.demo_read
       (py "SELECT name FROM customers") Exec.demo_world
     = (Exec.Ret [py "SELECT name FROM customers"],
        Exec.mkWorld 1 [Exec.Closed; Exec.Open; Exec.Closed]
          [Exec.EvConnect 2;
           Exec.EvQuery 2 (py "SELECT name FROM customers");
           Exec.EvClose 2]).
Proof.
  split.
  - apply (proj1 (proj1 (C5_connection_released _ _ Exec.demo_connect
                           Exec.demo_read)
                    (py "SELECT no_such_column FROM sales;")
                    Exec.demo_world eq_refl eq_refl)).
    reflexivity.
  - apply (proj2 (proj1 (C5_connection_released _ _ Exec.demo_connect
                           Exec.demo_read)
                    (py "SELECT name FROM customers")
                    Exec.demo_world eq_refl eq_refl)).
    reflexivity.
Defined.

(** * Further properties of the code *)

(** ** The safety gate: case and surrounding white space *)

Lemma is_sql_safe_rules (sql : str) :
  is_sql_safe sql = gate_rules (lower (strip sql)).
Proof.
  unfold is_sql_safe, gate_rules. destruct sql as [|c sql]; [reflexivity|].
  cbv zeta. destruct (startswith _ _); cbn [negb andb]; [|reflexivity].
  destruct (any _ forbidden); cbn [negb andb]; [reflexivity|].
  now destruct (_ && _).
Qed.

Lemma lstrip_by_all (p : ascii -> bool) (a x : str) :
  forallb p a = true -> lstrip_by p (a ++ x) = lstrip_by p x.
Proof.
  induction a as [|c a IH]; simpl; [reflexivity|].
  intros H. apply andb_true_iff in H. destruct H as [Hc Ha].
  rewrite Hc. now apply IH.
Qed.

Lemma rstrip_by_all (p : ascii -> bool) (x b : str) :
  forallb p b = true -> rstrip_by p (x ++ b) = rstrip_by p x.
Proof.
  intros H. unfold rstrip_by. rewrite rev_app_distr, lstrip_by_all;
    [reflexivity | now rewrite forallb_rev].
Qed.

Lemma lstrip_by_nil (p : ascii -> bool) (s : str) :
  lstrip_by p s = [] -> forallb p s = true.
Proof.
  induction s as [|c s IH]; simpl; [reflexivity|].
  destruct (p c); [exact IH | discriminate].
Qed.

(** White space around a text does not change what [strip] returns. *)
Lemma strip_pad (a s b : str) :
  forallb isspace a = true -> forallb isspace b = true ->
  strip (a ++ s ++ b) = strip s.
Proof.
  intros Ha Hb. unfold strip. rewrite (lstrip_by_all isspace a _ Ha).
  destruct (lstrip_by isspace s) as [|c r] eqn:E.
  - apply lstrip_by_nil in E.
    rewrite lstrip_by_all by assumption.
    destruct (lstrip_by_head isspace b) as [->|[x [y [Hx Hy]]]]; [reflexivity|].
    destruct (lstrip_by_split isspace b) as [u [Hu _]].
    assert (Hin : In x b).
    { rewrite Hu, Hx. apply in_or_app. right. now left. }
    rewrite forallb_forall in Hb. rewrite (Hb x Hin) in Hy. discriminate Hy.
  - rewrite lstrip_by_app by (rewrite E; discriminate).
    rewrite E. now apply rstrip_by_all.
Qed.

Lemma lstrip_lower (s : str) :
  lstrip_by isspace (lower s) = lower (lstrip_by isspace s).
Proof.
  induction s as [|c s IH]; [reflexivity|].
  cbn [lower map lstrip_by]. rewrite isspace_lower_char.
  destruct (isspace c); [exact IH | reflexivity].
Qed.

Lemma rev_lower (s : str) : rev (lower s) = lower (rev s).
Proof. unfold lower. symmetry. apply map_rev. Qed.

Lemma strip_lower (s : str) : strip (lower s) = lower (strip s).
Proof.
  unfold strip, rstrip_by.
  now rewrite lstrip_lower, rev_lower, lstrip_lower, rev_lower.
Qed.

Lemma lower_idem (s : str) : lower (lower s) = lower s.
Proof.
  unfold lower. rewrite map_map. apply map_ext. apply lower_char_idem.
Qed.

(** X1: the verdict of the gate is the same for two texts that differ only
    in the case of their letters and in the white space around them. *)
Theorem gate_ignores_case_and_padding (s s' a b : str) :
  forallb isspace a = true -> forallb isspace b = true ->
  lower s = lower s' ->
  is_sql_safe (a ++ s ++ b) = is_sql_safe s'.
Proof.
  intros Ha Hb E. rewrite !is_sql_safe_rules.
  rewrite (strip_pad a s b Ha Hb).
  now rewrite <- !strip_lower, E.
Qed.

Lemma gate_ignores_case_and_padding_witness :
  is_sql_safe (py "  SELECT Name FROM Customers " ++ nl)
  = is_sql_safe (py "select name from customers").
Proof.
  apply (gate_ignores_case_and_padding
           (py "SELECT Name FROM Customers") (py "select name from customers")
           (py "  ") (py " " ++ nl)); reflexivity.
Defined.

(** ** The statement the execution engine hands to the driver *)

Lemma rstrip_by_keep (p : ascii -> bool) (w x : str) :
  forallb (fun c => negb (p c)) w = true ->
  rstrip_by p (w ++ x) = w ++ rstrip_by p x.
Proof.
  induction w as [|c w IH]; simpl; [reflexivity|].
  intros H. apply andb_true_iff in H. destruct H as [Hc Hw].
  apply negb_true_iff in Hc.
  rewrite (rstrip_by_cons p (w ++ x) c Hc). now rewrite IH.
Qed.

Lemma rstrip_by_last (p : ascii -> bool) (s x : str) (c : ascii) :
  rstrip_by p s = x ++ [c] -> p c = false.
Proof.
  unfold rstrip_by. intros H.
  destruct (lstrip_by_head p (rev s)) as [E|[c' [r [E Hc]]]];
    rewrite E in H.
  - destruct x; discriminate H.
  - simpl in H. apply app_inj_tail in H. now destruct H as [_ <-].
Qed.

Lemma Infix_lower (t s : str) : Infix t s -> Infix (lower t) (lower s).
Proof.
  intros [a [b ->]]. exists (lower a), (lower b). now rewrite !lower_app.
Qed.

(** A predicate on characters that does not see case holds of no letter
    of a word spelled, case ignored, with letters it rejects. *)
Lemma forallb_negb_lower (p : ascii -> bool) (w : str) :
  (forall c, p (lower_char c) = p c) ->
  forallb (fun c => negb (p c)) (lower w) = forallb (fun c => negb (p c)) w.
Proof.
  intros Hp. induction w as [|c w IH]; [reflexivity|].
  cbn [lower map forallb]. fold (lower w). now rewrite Hp, IH.
Qed.

Lemma select_word_split (t : str) :
  Prefix (py "select") (lower t) ->
  exists w rest,
    t = w ++ rest /\ lower w = py "select"
    /\ forallb (fun c => negb (isspace c)) w = true
    /\ forallb (fun c => negb (existsb (Ascii.eqb c) (py ";"))) w = true.
Proof.
  intros [r H]. unfold lower in H. apply map_eq_app in H.
  destruct H as [w [rest [-> [Hw _]]]]. fold (lower w) in Hw.
  exists w, rest. repeat split; try assumption.
  - rewrite <- forallb_negb_lower by apply isspace_lower_char.
    now rewrite Hw.
  - rewrite <- forallb_negb_lower.
    + now rewrite Hw.
    + intros c. cbn [existsb py list_ascii_of_string].
      now rewrite lower_char_semicolon.
Qed.

(** What [run_sql] executes for an accepted text is accepted as well,
    occurs in the text and does not end in a semicolon. *)
Lemma sql_to_run_safe (sql : str) :
  is_sql_safe sql = true ->
  let q := rstrip_chars (py ";") (strip sql) in
  is_sql_safe q = true /\ Infix q sql /\ forall x, q <> x ++ py ";".
Proof.
  intros Hsafe q. apply is_sql_safe_spec in Hsafe.
  destruct Hsafe as [_ [Hp [Hf Hs]]].
  destruct (select_word_split (strip sql) Hp) as [w [rest [E [Hw [Hsp Hsc]]]]].
  assert (Hq : q = w ++ rstrip_chars (py ";") rest).
  { unfold q, rstrip_chars. rewrite E. now apply rstrip_by_keep. }
  destruct (rstrip_by_split (fun c => existsb (Ascii.eqb c) (py ";"))
              (strip sql)) as [b [Hb _]].
  fold (rstrip_chars (py ";") (strip sql)) in Hb. fold q in Hb.
  assert (Hi : Infix q sql).
  { apply Infix_trans with (strip sql); [|apply strip_Infix].
    exists [], b. exact Hb. }
  split; [|split; [exact Hi|]].
  - apply is_sql_safe_spec. split; [|split; [|split]].
    + rewrite Hq. destruct w; [discriminate Hw | discriminate].
    + rewrite Hq. unfold strip.
      assert (Hl : lstrip_by isspace (w ++ rstrip_chars (py ";") rest)
                   = w ++ rstrip_chars (py ";") rest).
      { destruct w as [|c w]; [discriminate Hw|]. simpl in Hsp |- *.
        apply andb_true_iff in Hsp. destruct Hsp as [Hc _].
        apply negb_true_iff in Hc. now rewrite Hc. }
      rewrite Hl, rstrip_by_keep by assumption.
      rewrite lower_app, Hw. now eexists.
    + intros [t [Hin Ht]]. apply Hf. exists t. split; [assumption|].
      exact (Infix_trans _ _ _ Ht (Infix_lower _ _ Hi)).
    + rewrite <- semicolons_strip in Hs. rewrite Hb, semicolons_app in Hs. lia.
  - intros x Hx. unfold q, rstrip_chars in Hx.
    apply rstrip_by_last in Hx. discriminate Hx.
Qed.

Section ExecTrace.

Import Exec.

Variables Store DataFrame : Type.
Variable sqlite_connect : Store -> option str.
Variable read_sql_query : str -> Store -> (str + DataFrame) * Store.

Local Abbreviation run := (run_sql sqlite_connect read_sql_query).

(** X2: every statement [run_sql] hands to the driver is itself accepted
    by the safety gate, is a piece of the text it was given and does not
    end in a semicolon. *)
Theorem run_sql_executes_safe_statements
        (sql : str) (w : World Store) (c : nat) (q : str) :
  In (EvQuery c q) (trace (snd (run sql w))) ->
  In (EvQuery c q) (trace w)
  \/ (is_sql_safe q = true /\ Infix q sql /\ forall x, q <> x ++ py ";").
Proof.
  destruct (is_sql_safe sql) eqn:Hsafe.
  - rewrite (run_sql_safe _ _ sqlite_connect read_sql_query sql w Hsafe).
    destruct (sqlite_connect (store w)); [now left|].
    cbv zeta. destruct (read_sql_query _ (store w)) as [[msg|df] st];
      cbn [snd trace]; intros H; apply in_app_or in H;
      (destruct H as [H|H]; [now left|]); right;
      (destruct H as [H|[H|[H|[]]]]; try discriminate H);
      injection H as _ <-; exact (sql_to_run_safe sql Hsafe).
  - rewrite (run_sql_unsafe _ _ sqlite_connect read_sql_query sql w Hsafe).
    now left.
Qed.

End ExecTrace.

Lemma run_sql_executes_safe_statements_witness :
  is_sql_safe (py "SELECT name FROM customers") = true
  /\ Infix (py "SELECT name FROM customers")
       (py "  SELECT name FROM customers; ")
  /\ forall x, py "SELECT name FROM customers" <> x ++ py ";".
Proof.
  destruct (run_sql_executes_safe_statements nat (list str)
              Exec.demo_connect Exec.demo_read
              (py "  SELECT name FROM customers; ") Exec.demo_world
              2 (py "SELECT name FROM customers")) as [H|H].
  - vm_compute. right. left. reflexivity.
  - vm_compute in H. contradiction.
  - exact H.
Defined.

(** ** The cleaner: shape of its result *)

Lemma clean_model_sql_cases (raw : str) :
  (raw = [] /\ _clean_model_sql raw = [])
  \/ (raw <> []
      /\ ((exists pre g,
              fence_stripped raw = pre ++ g /\ Re.select_at g = true
              /\ _clean_model_sql raw = strip g)
          \/ (Re.search_select (fence_stripped raw) = None
              /\ _clean_model_sql raw = fence_stripped raw))).
Proof.
  destruct raw as [|c raw]; [now left|]. right.
  assert (Hne : c :: raw <> []) by discriminate. split; [exact Hne|].
  rewrite (clean_model_sql_unfold _ Hne).
  destruct (Re.search_select (fence_stripped (c :: raw))) as [g|] eqn:E.
  - left. apply search_select_some in E. destruct E as [pre [Hs [Hg _]]].
    now exists pre, g.
  - now right.
Qed.

Lemma rstrip_by_first (p : ascii -> bool) (c : ascii) (r : str) :
  rstrip_by p (c :: r) = [] \/ exists r', rstrip_by p (c :: r) = c :: r'.
Proof.
  destruct (rstrip_by_split p (c :: r)) as [b [H _]].
  destruct (rstrip_by p (c :: r)) as [|x r']; [now left|].
  right. simpl in H. injection H as -> _. now exists r'.
Qed.

(** Trimming keeps the word select at the head of a text. *)
Lemma select_at_strip (g : str) :
  Re.select_at g = true -> Re.select_at (strip g) = true.
Proof.
  intros H. apply select_at_spec in H.
  destruct H as [w [rest [-> [Hw Hb]]]].
  assert (Hsp : forallb (fun c => negb (isspace c)) w = true).
  { rewrite <- forallb_negb_lower by apply isspace_lower_char.
    now rewrite Hw. }
  assert (Hl : lstrip_by isspace (w ++ rest) = w ++ rest).
  { destruct w as [|c w]; [discriminate Hw|]. simpl in Hsp |- *.
    apply andb_true_iff in Hsp. destruct Hsp as [Hc _].
    apply negb_true_iff in Hc. now rewrite Hc. }
  unfold strip. rewrite Hl, rstrip_by_keep by assumption.
  apply select_at_spec. exists w, (rstrip_by isspace rest).
  repeat split; [assumption|].
  destruct Hb as [->|[c [r [-> Hc]]]]; [now left|].
  destruct (rstrip_by_first isspace c r) as [->|[r' ->]]; [now left|].
  right. now exists c, r'.
Qed.

Lemma search_select_here (s : str) :
  Re.select_at s = true -> Re.search_select s = Some s.
Proof. intros H. destruct s; cbn [Re.search_select]; now rewrite H. Qed.

Lemma fence_stripped_fixed (x : str) :
  strip x = x -> ~ Infix (py "```") x -> fence_stripped x = x.
Proof.
  intros Hs Hf. unfold fence_stripped. rewrite Hs.
  rewrite sub_fence_none by assumption. exact Hs.
Qed.

Lemma no_fence_nil : ~ Infix (py "```") [].
Proof. apply contains_false. reflexivity. Qed.

Lemma clean_trimmed_fence_free (raw : str) :
  strip (_clean_model_sql raw) = _clean_model_sql raw
  /\ ~ Infix (py "```") (_clean_model_sql raw).
Proof.
  destruct (clean_model_sql_cases raw)
    as [[_ ->]|[_ [[pre [g [Hs [_ ->]]]]|[_ ->]]]].
  - split; [reflexivity | exact no_fence_nil].
  - split; [apply strip_idem|].
    intros Hi. apply (fence_stripped_clean raw). rewrite Hs.
    apply Infix_app_l. exact (Infix_trans _ _ _ Hi (strip_Infix g)).
  - split; [apply strip_idem | apply fence_stripped_clean].
Qed.

(** X3: whatever the input, the result of the cleaner is trimmed and
    holds no fence marker. *)
Theorem cleaner_result_trimmed_and_fence_free (raw : str) :
  strip (_clean_model_sql raw) = _clean_model_sql raw
  /\ ~ Infix (py "```") (_clean_model_sql raw).
Proof. exact (clean_trimmed_fence_free raw). Qed.

(** X4: the cleaner is idempotent: cleaning a cleaned text returns it
    unchanged. *)
Theorem cleaner_idempotent (raw : str) :
  _clean_model_sql (_clean_model_sql raw) = _clean_model_sql raw.
Proof.
  destruct (clean_trimmed_fence_free raw) as [Ht Hf].
  destruct (clean_model_sql_cases raw)
    as [[_ E]|[_ [[pre [g [_ [Hg E]]]]|[Hn E]]]].
  - now rewrite E.
  - rewrite E in *. set (out := strip g) in *.
    assert (Hsel : Re.select_at out = true) by now apply select_at_strip.
    assert (Hne : out <> []).
    { intros Ho. rewrite Ho in Hsel. discriminate Hsel. }
    rewrite (clean_model_sql_unfold out Hne).
    rewrite (fence_stripped_fixed out Ht Hf).
    now rewrite (search_select_here out Hsel).
  - rewrite E in *. remember (fence_stripped raw) as out eqn:Eo. clear Eo E.
    destruct out as [|c out]; [reflexivity|].
    assert (Hne : c :: out <> []) by discriminate.
    rewrite (clean_model_sql_unfold _ Hne).
    rewrite (fence_stripped_fixed _ Ht Hf). now rewrite Hn.
Qed.

Lemma clean_select_at (raw : str) :
  (exists pre suf, fence_stripped raw = pre ++ suf /\ SelectWord suf) ->
  Re.select_at (_clean_model_sql raw) = true.
Proof.
  intros [pre0 [suf0 [H0 Hw0]]]. apply select_at_spec in Hw0.
  destruct (clean_model_sql_cases raw)
    as [[-> _]|[_ [[pre [g [_ [Hg ->]]]]|[Hn _]]]].
  - rewrite fence_stripped_nil in H0. symmetry in H0.
    apply app_eq_nil in H0. destruct H0 as [_ ->]. discriminate Hw0.
  - now apply select_at_strip.
  - now rewrite (search_select_none _ Hn pre0 suf0 H0) in Hw0.
Qed.



(** ** Join repair: what is rewritten *)

Lemma spaces_split (r : str) :
  forallb isspace (firstn (Re.spaces r) r) = true
  /\ List.length (firstn (Re.spaces r) r) = Re.spaces r.
Proof.
  induction r as [|c r [IH1 IH2]]; [now split|].
  cbn [Re.spaces]. destruct (isspace c) eqn:Hc; [|now split].
  cbn [firstn forallb List.length]. rewrite Hc, IH1, IH2. now split.
Qed.

Lemma lower_length (s : str) : List.length (lower s) = List.length s.
Proof. apply length_map. Qed.

(** What a match of the join-repair pattern at the head of a text is. *)
Lemma from_sales_at_spec (s : str) (n : nat) :
  Re.from_sales_at s = Some n ->
  exists clause post,
    s = clause ++ post /\ List.length clause = n
    /\ FromSalesClause clause /\ Re.boundary post = true.
Proof.
  unfold Re.from_sales_at.
  destruct (Re.lit_ci (py "from") s) as [r|] eqn:Ef; [|discriminate].
  apply lit_ci_spec in Ef. destruct Ef as [f [-> Hf]].
  destruct (Re.spaces r) as [|k] eqn:Ek; [discriminate|].
  destruct (Re.lit_ci (py "sales") (skipn (S k) r)) as [r'|] eqn:Es;
    [|discriminate].
  apply lit_ci_spec in Es. destruct Es as [sl [Hr Hsl]].
  destruct (Re.boundary r') eqn:Hb; [|discriminate].
  intros [= <-]. destruct (spaces_split r) as [Hsp Hlen].
  rewrite Ek in Hsp, Hlen.
  exists (f ++ firstn (S k) r ++ sl), r'. repeat split.
  - rewrite <- !app_assoc. f_equal. rewrite <- Hr. symmetry.
    apply firstn_skipn.
  - rewrite !length_app, Hlen, <- (lower_length f), <- (lower_length sl).
    rewrite Hf, Hsl. simpl. lia.
  - exists f, (firstn (S k) r), sl. repeat split; try assumption.
    intros E. rewrite E in Hlen. discriminate Hlen.
  - exact Hb.
Qed.

Lemma skipn_app_length (a b : str) : skipn (List.length a) (a ++ b) = b.
Proof. induction a as [|c a IH]; [reflexivity | exact IH]. Qed.

(** [sub_first] either finds no match and returns the text, or replaces
    the leftmost match. *)
Lemma sub_first_spec (m : str -> option nat) (repl s : str) :
  (Re.sub_first m repl s = s
   /\ forall pre suf, s = pre ++ suf -> suf <> [] -> m suf = None)
  \/ exists pre suf n,
      s = pre ++ suf /\ m suf = Some n
      /\ (forall p1 p2, pre = p1 ++ p2 -> p2 <> [] -> m (p2 ++ suf) = None)
      /\ Re.sub_first m repl s = pre ++ repl ++ skipn n suf.
Proof.
  induction s as [|c s IH].
  - left. split; [reflexivity|]. intros pre suf H Hne.
    symmetry in H. apply app_eq_nil in H. destruct H as [_ ->]. now elim Hne.
  - cbn [Re.sub_first]. destruct (m (c :: s)) as [n|] eqn:E.
    + right. exists [], (c :: s), n. repeat split; try assumption.
      intros p1 p2 H Hne. symmetry in H. apply app_eq_nil in H.
      destruct H as [_ ->]. now elim Hne.
    + destruct IH as [[-> Hno]|[pre [suf [n [-> [Hm [Hl ->]]]]]]].
      * left. split; [reflexivity|]. intros pre suf H Hne.
        destruct pre as [|x pre]; simpl in H.
        -- now subst suf.
        -- injection H as _ H. now apply (Hno pre).
      * right. exists (c :: pre), suf, n. repeat split; try assumption.
        intros p1 p2 H Hne. destruct p1 as [|x p1]; simpl in H.
        -- now subst p2.
        -- injection H as _ H. now apply (Hl p1).
Qed.

(** The rewriting branch of the join repair, spelled out. *)
Lemma auto_fix_joins_rewrite (sql : str) :
  _auto_fix_joins sql <> sql ->
  exists pre clause post,
    sql = pre ++ clause ++ post
    /\ FromSalesClause clause
    /\ Re.boundary post = true
    /\ (forall p1 p2, pre = p1 ++ p2 -> p2 <> [] ->
                      Re.from_sales_at (p2 ++ clause ++ post) = None)
    /\ _auto_fix_joins sql = pre ++ replacement ++ post
    /\ _auto_fix_joins sql
       = Re.sub_first Re.from_sales_at replacement sql.
Proof.
  unfold _auto_fix_joins.
  destruct (_ && _); [|intros H; now elim H].
  destruct (_ || _); [intros H; now elim H|].
  intros Hne.
  destruct (sub_first_spec Re.from_sales_at replacement sql)
    as [[E _]|[pre [suf [n [Hs [Hm [Hl E]]]]]]]; [contradiction|].
  apply from_sales_at_spec in Hm.
  destruct Hm as [clause [post [-> [Hn [Hc Hb]]]]].
  exists pre, clause, post. repeat split; try assumption.
  rewrite E, <- Hn. now rewrite skipn_app_length.
Qed.

(** X6: when the join repair changes a query, it replaces exactly the
    leftmost clause made of from, white space and sales that ends at a
    word boundary by the join block, and keeps the text before and after
    it as it is. *)
Theorem join_repair_replaces_one_clause (sql : str) :
  _auto_fix_joins sql <> sql ->
  exists pre clause post,
    sql = pre ++ clause ++ post
    /\ FromSalesClause clause
    /\ Re.boundary post = true
    /\ (forall p1 p2, pre = p1 ++ p2 -> p2 <> [] ->
                      Re.from_sales_at (p2 ++ clause ++ post) = None)
    /\ _auto_fix_joins sql = pre ++ replacement ++ post.
Proof.
  intros H. destruct (auto_fix_joins_rewrite sql H)
    as [pre [clause [post [H1 [H2 [H3 [H4 [H5 _]]]]]]]].
  now exists pre, clause, post.
Qed.

Lemma join_repair_replaces_one_clause_witness :
  exists pre clause post,
    py "select customer_name FROM   Sales, from sales"
    = pre ++ clause ++ post
    /\ FromSalesClause clause
    /\ Re.boundary post = true
    /\ (forall p1 p2, pre = p1 ++ p2 -> p2 <> [] ->
                      Re.from_sales_at (p2 ++ clause ++ post) = None)
    /\ _auto_fix_joins (py "select customer_name FROM   Sales, from sales")
       = pre ++ replacement ++ post.
Proof.
  apply join_repair_replaces_one_clause. vm_compute. discriminate.
Defined.

(** ** Join repair and the safety gate *)

Lemma isword_lower_char (c : ascii) : isword (lower_char c) = isword c.
Proof. all_chars c. Qed.

Lemma Infix_cons_inv (t s : str) (c : ascii) :
  Infix t (c :: s) -> Prefix t (c :: s) \/ Infix t s.
Proof.
  intros H. apply contains_spec in H. cbn [contains] in H.
  apply orb_true_iff in H. destruct H as [H|H].
  - left. now apply startswith_spec.
  - right. now apply contains_spec.
Qed.

(** The lower-cased join block is the letter f, a middle part, and the
    ending [_id]. *)
Lemma replacement_shape :
  exists middle,
    lower replacement = "f"%char :: middle ++ "_"%char :: py "id"
    /\ forallb
         (fun t =>
            negb (existsb (Ascii.eqb "f") t)
            && negb (existsb (Ascii.eqb "_") t)
            && negb (contains t middle))
         forbidden = true.
Proof.
  exists (removelast (removelast (removelast (tl (lower replacement))))).
  split; reflexivity.
Qed.

(** No forbidden token can start on the ending [id] of the join block
    and run into a text that begins at a word boundary. *)
Lemma forbidden_heads :
  forallb
    (fun t =>
       match t with
       | [] => false
       | [c] => negb (Ascii.eqb c "i") && negb (Ascii.eqb c "d")
       | c1 :: c2 :: _ =>
           negb (Ascii.eqb c1 "i" && Ascii.eqb c2 "d")
           && negb (Ascii.eqb c1 "d" && negb (isword c2))
       end)
    forbidden = true.
Proof. reflexivity. Qed.

Lemma not_in_existsb (c : ascii) (t : str) :
  existsb (Ascii.eqb c) t = false -> ~ In c t.
Proof.
  intros H Hin.
  assert (E : existsb (Ascii.eqb c) t = true).
  { apply existsb_exists. exists c. split; [assumption | apply Ascii.eqb_refl]. }
  now rewrite E in H.
Qed.

Lemma forbidden_after_id (t post : str) :
  In t forbidden -> Re.boundary post = true ->
  Infix t (py "id" ++ lower post) -> Infix t (lower post).
Proof.
  intros Hin Hb H. pose proof forbidden_heads as Hh.
  rewrite forallb_forall in Hh. specialize (Hh t Hin).
  change (py "id" ++ lower post)
    with ("i"%char :: "d"%char :: lower post) in H.
  apply Infix_cons_inv in H. destruct H as [[r H]|H].
  - exfalso. destruct t as [|c1 [|c2 t]]; [discriminate Hh| |]; simpl in H.
    + injection H as <- _. discriminate Hh.
    + injection H as <- <- _. discriminate Hh.
  - apply Infix_cons_inv in H. destruct H as [[r H]|H]; [|exact H].
    exfalso. destruct t as [|c1 [|c2 t]]; [discriminate Hh| |]; simpl in H.
    + injection H as <- _. discriminate Hh.
    + destruct post as [|c post]; [discriminate H|].
      simpl in H. injection H as <- <- _. simpl in Hb.
      rewrite isword_lower_char in Hh.
      apply negb_true_iff in Hb. rewrite Hb in Hh. discriminate Hh.
Qed.

(** Putting the join block between two texts, the second beginning at a
    word boundary, brings no forbidden token that was not in one of them. *)
Lemma no_new_forbidden (pre post : str) :
  Re.boundary post = true ->
  forbidden_in (pre ++ replacement ++ post) ->
  forbidden_in pre \/ forbidden_in post.
Proof.
  intros Hb [t [Hin H]].
  destruct replacement_shape as [middle [E Hm]].
  rewrite forallb_forall in Hm. specialize (Hm t Hin).
  apply andb_true_iff in Hm. destruct Hm as [Hm Hmid].
  apply andb_true_iff in Hm. destruct Hm as [Hf Hu].
  apply negb_true_iff in Hf, Hu, Hmid.
  rewrite !lower_app, E in H. simpl in H.
  apply Infix_split in H; [|now apply not_in_existsb].
  destruct H as [H|H]; [left; now exists t|].
  rewrite <- app_assoc in H. simpl in H.
  apply Infix_split in H; [|now apply not_in_existsb].
  destruct H as [H|H].
  - apply contains_spec in H. now rewrite H in Hmid.
  - right. exists t. split; [assumption|].
    now apply forbidden_after_id.
Qed.

Lemma forbidden_in_part (u s : str) :
  Infix u s -> forbidden_in u -> forbidden_in s.
Proof.
  intros Hi [t [Hin H]]. exists t. split; [assumption|].
  exact (Infix_trans _ _ _ H (Infix_lower _ _ Hi)).
Qed.

Lemma from_sales_at_head (c : ascii) (s : str) :
  Ascii.eqb (lower_char c) "f" = false -> Re.from_sales_at (c :: s) = None.
Proof.
  intros H. unfold Re.from_sales_at.
  cbn [Re.lit_ci py list_ascii_of_string]. now rewrite H.
Qed.

(** The join repair leaves alone a beginning of the text in which no
    letter f stands. *)
Lemma sub_first_keep (x y : str) :
  forallb (fun c => negb (Ascii.eqb (lower_char c) "f")) x = true ->
  Re.sub_first Re.from_sales_at replacement (x ++ y)
  = x ++ Re.sub_first Re.from_sales_at replacement y.
Proof.
  induction x as [|c x IH]; [reflexivity|].
  cbn [forallb]. intros H. apply andb_true_iff in H. destruct H as [Hc Hx].
  apply negb_true_iff in Hc. cbn [app Re.sub_first].
  rewrite (from_sales_at_head c (x ++ y) Hc). now rewrite IH.
Qed.

Lemma space_not_f (c : ascii) :
  isspace c = true -> Ascii.eqb (lower_char c) "f" = false.
Proof. all_chars c. Qed.

Lemma spaces_no_f (a : str) :
  forallb isspace a = true ->
  forallb (fun c => negb (Ascii.eqb (lower_char c) "f")) a = true.
Proof.
  induction a as [|c a IH]; [reflexivity|].
  cbn [forallb]. intros H. apply andb_true_iff in H. destruct H as [Hc Ha].
  now rewrite (space_not_f c Hc), IH.
Qed.

Lemma select_no_f (w : str) :
  lower w = py "select" ->
  forallb (fun c => negb (Ascii.eqb (lower_char c) "f")) w = true.
Proof.
  intros Hw.
  rewrite <- (forallb_negb_lower (fun c => Ascii.eqb (lower_char c) "f") w).
  - now rewrite Hw.
  - intros c. now rewrite lower_char_idem.
Qed.

Lemma strip_word_head (a w z : str) :
  forallb isspace a = true ->
  forallb (fun c => negb (isspace c)) w = true -> w <> [] ->
  strip (a ++ w ++ z) = w ++ rstrip_by isspace z.
Proof.
  intros Ha Hw Hne. unfold strip. rewrite (lstrip_by_all isspace a _ Ha).
  assert (Hl : lstrip_by isspace (w ++ z) = w ++ z).
  { destruct w as [|c w]; [now elim Hne|]. simpl in Hw |- *.
    apply andb_true_iff in Hw. destruct Hw as [Hc _].
    apply negb_true_iff in Hc. now rewrite Hc. }
  rewrite Hl. now apply rstrip_by_keep.
Qed.

Lemma auto_fix_joins_safe (sql : str) :
  is_sql_safe sql = true -> is_sql_safe (_auto_fix_joins sql) = true.
Proof.
  intros Hsafe.
  destruct (list_eq_dec ascii_dec (_auto_fix_joins sql) sql) as [E|Hne];
    [now rewrite E|].
  destruct (auto_fix_joins_rewrite sql Hne)
    as [pre [clause [post [Hs [_ [Hb [_ [Eout Esub]]]]]]]].
  apply is_sql_safe_spec in Hsafe. destruct Hsafe as [_ [Hp [Hf Hsc]]].
  apply is_sql_safe_spec. split; [|split; [|split]].
  - rewrite Eout. intros H. apply app_eq_nil in H. destruct H as [_ H].
    apply app_eq_nil in H. destruct H as [H _]. discriminate H.
  - destruct (strip_split sql) as [a [b [Hsplit [Ha _]]]].
    destruct (select_word_split (strip sql) Hp)
      as [w [rest [Ew [Hw [Hsp _]]]]].
    assert (Hwne : w <> []) by (intros ->; discriminate Hw).
    rewrite Esub, Hsplit, Ew, <- !app_assoc, app_assoc.
    rewrite sub_first_keep
      by (rewrite forallb_app, (spaces_no_f a Ha), (select_no_f w Hw);
          reflexivity).
    rewrite <- app_assoc, (strip_word_head a w _ Ha Hsp Hwne).
    rewrite lower_app, Hw. now eexists.
  - intros H. rewrite Eout in H. apply no_new_forbidden in H; [|assumption].
    apply Hf. destruct H as [H|H]; refine (forbidden_in_part _ _ _ H);
      rewrite Hs.
    + exists [], (clause ++ post). reflexivity.
    + exists (pre ++ clause), []. now rewrite app_nil_r, app_assoc.
  - rewrite Hs in Hsc. rewrite Eout. rewrite !semicolons_app in *.
    change (semicolons replacement) with 0. lia.
Qed.

(** X7: the join repair never turns a query the safety gate accepts into
    one it rejects. *)
Theorem join_repair_keeps_query_safe (sql : str) :
  is_sql_safe sql = true -> is_sql_safe (_auto_fix_joins sql) = true.
Proof. exact (auto_fix_joins_safe sql). Qed.

Lemma join_repair_keeps_query_safe_witness :
  is_sql_safe
    (_auto_fix_joins (py "SELECT product_name FROM sales WHERE quantity > 5;"))
  = true
  /\ _auto_fix_joins (py "SELECT product_name FROM sales WHERE quantity > 5;")
     <> py "SELECT product_name FROM sales WHERE quantity > 5;".
Proof.
  split.
  - apply join_repair_keeps_query_safe. reflexivity.
  - vm_compute. discriminate.
Defined.

(** ** The generation client: what it returns *)

Lemma Infix_past (t r y : str) :
  t <> [] -> (forall c, In c r -> ~ In c t) ->
  Infix t (r ++ y) -> Infix t y.
Proof.
  intros Hne Hd. induction r as [|c r IH]; [trivial|].
  intros H. apply IH; [intros x Hx; apply Hd; now right|].
  apply (Infix_split t [] (r ++ y) c) in H; [|apply Hd; now left].
  destruct H as [[a [b H]]|H]; [|exact H].
  exfalso. apply Hne. symmetry in H. apply app_eq_nil in H.
  destruct H as [_ H]. now apply app_eq_nil in H.
Qed.

Lemma Infix_around (t x r y : str) :
  t <> [] -> r <> [] -> (forall c, In c r -> ~ In c t) ->
  Infix t (x ++ r ++ y) -> Infix t x \/ Infix t y.
Proof.
  intros Hne Hr Hd H. destruct r as [|c r]; [now elim Hr|].
  apply Infix_split in H; [|apply Hd; now left].
  destruct H as [H|H]; [now left|]. right.
  apply (Infix_past t r y Hne); [|exact H].
  intros x0 Hx. apply Hd. now right.
Qed.

Lemma replacement_no_backquote (c : ascii) :
  In c replacement -> ~ In c (py "```").
Proof.
  intros Hin Hc.
  assert (H : forallb (fun x => negb (Ascii.eqb x "`")) replacement = true)
    by reflexivity.
  rewrite forallb_forall in H. specialize (H c Hin).
  simpl in Hc. destruct Hc as [<-|[<-|[<-|[]]]]; discriminate H.
Qed.

(** The join repair brings no fence marker into a text without one. *)
Lemma auto_fix_joins_no_fence (sql : str) :
  ~ Infix (py "```") sql -> ~ Infix (py "```") (_auto_fix_joins sql).
Proof.
  intros Hf.
  destruct (list_eq_dec ascii_dec (_auto_fix_joins sql) sql) as [E|Hne];
    [now rewrite E|].
  destruct (auto_fix_joins_rewrite sql Hne)
    as [pre [clause [post [Hs [_ [_ [_ [Eout _]]]]]]]].
  rewrite Eout. intros H.
  apply Infix_around in H;
    [| discriminate | discriminate | exact replacement_no_backquote].
  apply Hf. rewrite Hs. destruct H as [[a [b ->]]|[a [b ->]]].
  - exists a, (b ++ clause ++ post). now rewrite <- !app_assoc.
  - exists (pre ++ clause ++ a), b. now rewrite <- !app_assoc.
Qed.

(** The join repair keeps the word select at the head of a query. *)
Lemma auto_fix_joins_keeps_select (sql : str) :
  Re.select_at sql = true ->
  Prefix (py "select") (lower (strip (_auto_fix_joins sql))).
Proof.
  intros H. apply select_at_spec in H.
  destruct H as [w [rest [Hs [Hw _]]]].
  assert (Hsp : forallb (fun c => negb (isspace c)) w = true).
  { rewrite <- forallb_negb_lower by apply isspace_lower_char.
    now rewrite Hw. }
  assert (Hwne : w <> []) by (intros ->; discriminate Hw).
  assert (Hout : exists z, _auto_fix_joins sql = w ++ z).
  { destruct (list_eq_dec ascii_dec (_auto_fix_joins sql) sql) as [E|Hne].
    - exists rest. now rewrite E.
    - destruct (auto_fix_joins_rewrite sql Hne)
        as [_ [_ [_ [_ [_ [_ [_ [_ Esub]]]]]]]].
      rewrite Esub, Hs, (sub_first_keep w rest (select_no_f w Hw)).
      now eexists. }
  destruct Hout as [z ->].
  change (w ++ z) with ([] ++ w ++ z).
  rewrite (strip_word_head [] w z eq_refl Hsp Hwne).
  rewrite lower_app, Hw. now eexists.
Qed.

Section ClientProps.

Import Exec Llm.

Variable chat : request -> result str.



End ClientProps.


(** ** Schema introspection *)

Section IntrospectProps.

Import Exec Introspect.

Variable Store : Type.
Variable path_exists : Store -> bool.
Variable sqlite_connect : Store -> option str.
Variable execute : str -> Store -> (str + list (list str)) * Store.

Local Abbreviation schema_of :=
  (get_db_schema path_exists sqlite_connect execute).

Lemma cur_execute_conns (c : nat) (sql : str) (w : World Store) :
  conns (snd (cur_execute execute c sql w)) = conns w.
Proof.
  unfold cur_execute. destruct (execute sql (store w)) as [[msg|rows] st];
    reflexivity.
Qed.

Lemma load_tables_conns (c : nat) (tables : list str)
      (schema : dict (list str)) (w : World Store) :
  conns (snd (load_tables execute c tables schema w)) = conns w.
Proof.
  revert schema w. induction tables as [|t rest IH]; intros schema w;
    [reflexivity|].
  cbn [load_tables]. pose proof (cur_execute_conns c (table_info_query t) w) as H.
  destruct (cur_execute execute c (table_info_query t) w) as [[e|rows] w'];
    simpl in H; [exact H|].
  destruct (column 1 rows) as [e|cols]; [exact H|].
  now rewrite IH.
Qed.

Lemma load_schema_conns (c : nat) (schema : dict (list str))
      (w : World Store) :
  conns (snd (load_schema execute c schema w)) = conns w.
Proof.
  unfold load_schema. pose proof (cur_execute_conns c tables_query w) as H.
  destruct (cur_execute execute c tables_query w) as [[e|rows] w'];
    simpl in H; [exact H|].
  destruct (column 0 rows) as [e|tables]; [exact H|].
  now rewrite load_tables_conns.
Qed.

(** X10: [get_db_schema] returns the empty schema without touching the
    world when the database file does not exist; otherwise, whether it
    returns or raises, every connection it opened is closed: the table of
    connections is the one it found, with at most one closed connection
    more. *)
Theorem get_db_schema_closes_connection (w : World Store) :
  (path_exists (store w) = false -> schema_of w = (inr [], w))
  /\ (conns (snd (schema_of w)) = conns w
      \/ conns (snd (schema_of w)) = conns w ++ [Closed])
  /\ open_count (conns (snd (schema_of w))) = open_count (conns w).
Proof.
  unfold get_db_schema. destruct (path_exists (store w)); cbn [negb].
  2:{ repeat split; auto. }
  split; [discriminate|].
  destruct (sqlite_connect (store w)); [split; [now left | reflexivity]|].
  cbv zeta.
  pose proof (load_schema_conns (List.length (conns w)) []
                (mkWorld (store w) (conns w ++ [Open])
                   (trace w ++ [EvConnect (List.length (conns w))]))) as H.
  destruct (load_schema execute _ _ _) as [r w2]. simpl in H.
  cbn [snd conn_close conns]. rewrite H, set_state_last.
  split; [now right | apply open_count_closed].
Qed.

End IntrospectProps.

Lemma get_db_schema_closes_connection_witness :
  Introspect.get_db_schema (fun _ => false) Introspect.demo_connect_ok
    Introspect.demo_execute Introspect.demo_db_world
  = (inr [], Introspect.demo_db_world).
Proof.
  apply (proj1 (get_db_schema_closes_connection _ (fun _ => false)
                  Introspect.demo_connect_ok Introspect.demo_execute
                  Introspect.demo_db_world)).
  reflexivity.
Defined.

Lemma str_eqb_spec (a b : str) : Introspect.str_eqb a b = true <-> a = b.
Proof.
  unfold Introspect.str_eqb. destruct (list_eq_dec ascii_dec a b) as [E|E];
    split; intros H; try assumption; try reflexivity;
    [discriminate H | contradiction].
Qed.

Lemma dict_get_set_same {V} (k : str) (v : V) (d : Introspect.dict V) :
  Introspect.dict_get k (Introspect.dict_set k v d) = Some v.
Proof.
  assert (Hk : Introspect.str_eqb k k = true) by now apply str_eqb_spec.
  induction d as [|[k' v'] d IH]; simpl; [now rewrite Hk|].
  destruct (Introspect.str_eqb k' k) eqn:E; simpl; [now rewrite Hk|].
  now rewrite E.
Qed.

Lemma dict_get_set_other {V} (k k' : str) (v : V) (d : Introspect.dict V) :
  k <> k' ->
  Introspect.dict_get k' (Introspect.dict_set k v d)
  = Introspect.dict_get k' d.
Proof.
  intros Hne.
  assert (Hk : Introspect.str_eqb k k' = false).
  { destruct (Introspect.str_eqb k k') eqn:E; [|reflexivity].
    apply str_eqb_spec in E. contradiction. }
  induction d as [|[k0 v0] d IH]; simpl; [now rewrite Hk|].
  destruct (Introspect.str_eqb k0 k) eqn:E; simpl.
  - apply str_eqb_spec in E. subst k0. now rewrite Hk.
  - now rewrite IH.
Qed.

Section IntrospectContent.

Import Exec Introspect.

Variable Store : Type.
Variable path_exists : Store -> bool.
Variable sqlite_connect : Store -> option str.
Variable execute : str -> Store -> (str + list (list str)) * Store.

(** The statements of the introspection only read the store. *)
Hypothesis execute_reads : forall sql st, snd (execute sql st) = st.

Local Abbreviation table_columns := (Introspect.table_columns execute).

Lemma cur_execute_rows (c : nat) (sql : str) (w w' : World Store)
      (rows : list (list str)) :
  cur_execute execute c sql w = (inr rows, w') ->
  execute sql (store w) = (inr rows, store w) /\ store w' = store w.
Proof.
  unfold cur_execute. pose proof (execute_reads sql (store w)) as H.
  destruct (execute sql (store w)) as [[msg|rows'] st]; simpl in H; subst st;
    [discriminate|].
  intros [= -> <-]. now split.
Qed.

Lemma load_tables_content (c : nat) (tables : list str) :
  forall (s0 s : dict (list str)) (w w' : World Store),
    load_tables execute c tables s0 w = (inr s, w') ->
    (forall t cols,
        dict_get t s = Some cols ->
        (In t tables /\ table_columns (store w) t cols)
        \/ dict_get t s0 = Some cols)
    /\ (forall t, In t tables -> dict_get t s <> None)
    /\ (forall t, dict_get t s0 <> None -> dict_get t s <> None).
Proof.
  induction tables as [|t rest IH]; intros s0 s w w'.
  - cbn [load_tables]. intros [= <- <-]. repeat split.
    + intros t cols H. now right.
    + intros t [].
    + trivial.
  - cbn [load_tables].
    destruct (cur_execute execute c (table_info_query t) w)
      as [[e|rows] w1] eqn:E; [discriminate|].
    apply cur_execute_rows in E. destruct E as [Ex Est].
    destruct (column 1 rows) as [e|cols] eqn:Ec; [discriminate|].
    intros H. apply IH in H. destruct H as [H1 [H2 H3]].
    assert (Ht : table_columns (store w) t cols) by now exists rows.
    rewrite Est in H1. repeat split.
    + intros k kc Hk. destruct (H1 k kc Hk) as [[Hin Hc]|Hs].
      * left. split; [now right | exact Hc].
      * destruct (list_eq_dec ascii_dec t k) as [<-|Hne].
        -- rewrite dict_get_set_same in Hs. injection Hs as <-.
           left. split; [now left | exact Ht].
        -- rewrite (dict_get_set_other t k cols s0 Hne) in Hs. now right.
    + intros k [<-|Hin]; [|now apply H2].
      apply H3. now rewrite dict_get_set_same.
    + intros k Hk. apply H3.
      destruct (list_eq_dec ascii_dec t k) as [<-|Hne].
      * now rewrite dict_get_set_same.
      * now rewrite (dict_get_set_other t k cols s0 Hne).
Qed.

(** X11: over a driver whose statements only read the store, a schema
    that [get_db_schema] returns for an existing database file has
    exactly the tables that [sqlite_master] lists as its keys, and gives
    each of them the column names that [PRAGMA table_info] reports for
    it, in the order of its rows. *)
Theorem get_db_schema_content
        (w w' : World Store) (schema : dict (list str)) :
  path_exists (store w) = true ->
  get_db_schema path_exists sqlite_connect execute w = (inr schema, w') ->
  exists table_rows tables,
    execute tables_query (store w) = (inr table_rows, store w)
    /\ column 0 table_rows = inr tables
    /\ (forall t, In t tables <-> dict_get t schema <> None)
    /\ (forall t cols,
           dict_get t schema = Some cols -> table_columns (store w) t cols).
Proof.
  intros Hp. unfold get_db_schema. rewrite Hp. cbn [negb].
  destruct (sqlite_connect (store w)); [discriminate|]. cbv zeta.
  destruct (load_schema execute _ _ _) as [r w2] eqn:E.
  intros [= -> _]. unfold load_schema in E.
  destruct (cur_execute execute _ tables_query _) as [[e|rows] w1] eqn:Ex;
    [discriminate|].
  apply cur_execute_rows in Ex. cbn [store] in Ex. destruct Ex as [Ex Est].
  destruct (column 0 rows) as [e|tables] eqn:Ec; [discriminate|].
  apply load_tables_content in E. rewrite Est in E.
  destruct E as [H1 [H2 H3]].
  exists rows, tables. repeat split; try assumption.
  - apply H2.
  - intros Hk. destruct (dict_get t schema) as [cols|] eqn:Eg;
      [|now elim Hk].
    destruct (H1 t cols Eg) as [[Hin _]|Hs]; [exact Hin | discriminate Hs].
  - intros t cols Hg. destruct (H1 t cols Hg) as [[_ Hc]|Hs];
      [exact Hc | discriminate Hs].
Qed.

End IntrospectContent.

Lemma demo_execute_reads (sql : str) (db : list (str * list str)) :
  snd (Introspect.demo_execute sql db) = db.
Proof.
  unfold Introspect.demo_execute. destruct (Introspect.str_eqb _ _);
    [reflexivity|].
  now destruct (find _ db).
Qed.

Lemma get_db_schema_content_witness :
  exists schema w',
    Introspect.get_db_schema (fun _ => true) Introspect.demo_connect_ok
      Introspect.demo_execute Introspect.demo_db_world
    = (inr schema, w')
    /\ Introspect.dict_get (py "customers") schema
       = Some [py "customer_id"; py "name"; py "city"]
    /\ forall t cols,
        Introspect.dict_get t schema = Some cols ->
        Introspect.table_columns Introspect.demo_execute Introspect.demo_db
          t cols.
Proof.
  destruct (Introspect.get_db_schema (fun _ => true)
              Introspect.demo_connect_ok Introspect.demo_execute
              Introspect.demo_db_world) as [[e|schema] w'] eqn:E;
    [vm_compute in E; discriminate E|].
  exists schema, w'. split; [reflexivity|]. split.
  - vm_compute in E. injection E as <- _. reflexivity.
  - destruct (get_db_schema_content _ (fun _ => true)
                Introspect.demo_connect_ok Introspect.demo_execute
                demo_execute_reads Introspect.demo_db_world w' schema
                eq_refl E) as [rows [tables [_ [_ [_ H]]]]].
    exact H.
Defined.

(** ** The demo database script *)

Lemma index_ok {A} (l : list A) (i : Z) :
  (0 <= i < Z.of_nat (List.length l))%Z ->
  exists x, DemoDb.index l i = inr x /\ In x l.
Proof.
  intros Hi. unfold DemoDb.index.
  destruct (Z.ltb_spec i 0) as [H|_]; [lia|].
  destruct (Z.ltb_spec i 0) as [H|_]; [lia|].
  destruct (nth_error l (Z.to_nat i)) as [x|] eqn:E.
  - exists x. split; [reflexivity|]. now apply nth_error_In in E.
  - apply nth_error_None in E. lia.
Qed.

Lemma insert_all_fresh {A} (key : A -> Z) (rows table : list A) :
  NoDup (map key (table ++ rows)) ->
  DemoDb.insert_all key rows table = inr (table ++ rows).
Proof.
  revert table. induction rows as [|row rest IH]; intros table H.
  - simpl. now rewrite app_nil_r.
  - cbn [DemoDb.insert_all].
    destruct (existsb (fun r => (key r =? key row)%Z) table) eqn:E.
    + exfalso. apply existsb_exists in E. destruct E as [r [Hin Hk]].
      apply Z.eqb_eq in Hk. rewrite map_app in H. cbn [map] in H.
      apply NoDup_remove_2 in H. apply H. apply in_or_app. left.
      rewrite <- Hk. now apply in_map.
    + rewrite IH; [now rewrite <- app_assoc|].
      now rewrite <- app_assoc.
Qed.

Lemma range_NoDup (a b : nat) : NoDup (DemoDb.range a b).
Proof.
  unfold DemoDb.range. generalize (b - a) as n. intros n. revert a.
  induction n as [|n IH]; intros a; cbn [seq map]; constructor.
  - intros H. apply in_map_iff in H. destruct H as [x [Hx Hin]].
    apply in_seq in Hin. lia.
  - apply IH.
Qed.

Lemma range_bounds (a b : nat) (x : Z) :
  In x (DemoDb.range a b) -> (Z.of_nat a <= x < Z.of_nat b)%Z.
Proof.
  unfold DemoDb.range. intros H. apply in_map_iff in H.
  destruct H as [n [<- Hn]]. apply in_seq in Hn. lia.
Qed.

Lemma lookup_price_ok (pid : Z) :
  (1 <= pid <= 10)%Z ->
  exists base,
    DemoDb.lookup DemoDb.price_map pid = inr base /\ (1200 <= base <= 90000)%Z
    /\ (pid <> 3 -> 3500 <= base)%Z.
Proof.
  intros H.
  assert (C : (pid = 1 \/ pid = 2 \/ pid = 3 \/ pid = 4 \/ pid = 5
               \/ pid = 6 \/ pid = 7 \/ pid = 8 \/ pid = 9 \/ pid = 10)%Z)
    by lia.
  repeat (destruct C as [->|C]); try subst pid;
    (eexists; split; [reflexivity | lia]).
Qed.

Section DemoDbProps.

Import DemoDb.

Variable Rng : Type.
Variable draw : Z -> Z -> Rng -> Z * Rng.
Variable pick : nat -> Rng -> nat * Rng.
Variable date : Z -> Z -> Z -> Z.
Variable isoformat : Z -> str.

(** [random.randint(lo, hi)] returns an integer from [lo] to [hi]. *)
Hypothesis draw_range :
  forall lo hi g, (lo <= hi)%Z -> (lo <= fst (draw lo hi g) <= hi)%Z.

(** [random.choice] picks an item of the sequence. *)
Hypothesis pick_range : forall n g, 0 < n -> fst (pick n g) < n.

Lemma randint_ok (lo hi : Z) (g : Rng) :
  (lo <= hi)%Z ->
  exists v g', randint draw lo hi g = (inr v, g') /\ (lo <= v <= hi)%Z.
Proof.
  intros H. unfold randint. destruct (Z.ltb_spec hi lo) as [Hlt|_]; [lia|].
  pose proof (draw_range lo hi g H) as Hd.
  destruct (draw lo hi g) as [v g']. now exists v, g'.
Qed.

Lemma choice_ok {A} (l : list A) (g : Rng) :
  l <> [] -> exists x g', choice pick l g = (inr x, g') /\ In x l.
Proof.
  intros Hne. unfold choice. destruct l as [|a l]; [now elim Hne|].
  pose proof (pick_range (List.length (a :: l)) g) as Hp.
  destruct (pick (List.length (a :: l)) g) as [i g']. simpl fst in Hp.
  destruct (index_ok (a :: l) (Z.of_nat i)) as [x [E Hin]].
  - split; [lia|]. apply Nat2Z.inj_lt. apply Hp. simpl. lia.
  - exists x, g'. now rewrite E.
Qed.

Lemma random_day_ok (sy ey : Z) (g : Rng) :
  (date sy 1 1 <= date ey 12 31)%Z ->
  exists day g',
    random_day draw date sy ey g = (inr day, g')
    /\ (date sy 1 1 <= day <= date ey 12 31)%Z.
Proof.
  intros H. unfold random_day, DemoDb.bind.
  destruct (randint_ok 0 (date ey 12 31 - date sy 1 1) g) as [v [g' [E Hv]]];
    [lia|].
  rewrite E. exists (date sy 1 1 + v)%Z, g'. split; [reflexivity | lia].
Qed.


(** The calendar puts the first day of 2023 before the last of 2025. *)
Hypothesis years_in_order : (date 2023 1 1 <= date 2025 12 31)%Z.

Lemma build_sales_ok (sids : list Z) :
  forall (acc : list sale) (g : Rng),
  exists ss g',
    build_sales draw date isoformat sids acc g = (inr (acc ++ ss), g')
    /\ map sale_id ss = sids
    /\ Forall (sale_ok date isoformat) ss.
Proof.
  induction sids as [|sid rest IH]; intros acc g.
  - exists [], g. cbn. rewrite app_nil_r. repeat split. constructor.
  - cbn [build_sales]. unfold DemoDb.bind at 1. unfold random_date.
    unfold DemoDb.bind at 1.
    destruct (random_day_ok 2023 2025 g years_in_order)
      as [day [g1 [E1 Hday]]].
    rewrite E1. cbn [DemoDb.ret]. unfold DemoDb.bind at 1.
    destruct (randint_ok 1 10 g1) as [pid [g2 [E2 Hpid]]]; [lia|].
    rewrite E2. unfold DemoDb.bind at 1.
    destruct (randint_ok 1 15 g2) as [cid [g3 [E3 Hcid]]]; [lia|].
    rewrite E3. unfold DemoDb.bind at 1.
    destruct (randint_ok 1 10 g3) as [q [g4 [E4 Hq]]]; [lia|].
    rewrite E4. unfold DemoDb.bind at 1. unfold DemoDb.lift.
    destruct (lookup_price_ok pid Hpid) as [base [Eb _]].
    rewrite Eb. unfold DemoDb.bind at 1.
    destruct (randint_ok (-2000) 2000 g4) as [off [g5 [E5 Hoff]]]; [lia|].
    rewrite E5.
    destruct (IH (acc ++ [mkSale sid (isoformat day) pid cid q (base + off)])
                 g5) as [ss [g' [E [Hids Hok]]]].
    rewrite E. eexists (_ :: ss), g'. split; [|split].
    + now rewrite <- app_assoc.
    + cbn [map sale_id]. now rewrite Hids.
    + constructor; [|exact Hok]. unfold sale_ok. cbn.
      repeat split; try lia.
      * exists base. split; [exact Eb | lia].
      * exists day. split; [reflexivity | lia].
Qed.

Lemma build_customers_ok (cids : list Z) :
  forall (acc : list (Z * str * str)) (g : Rng),
    (forall cid, In cid cids -> (1 <= cid <= 15)%Z) ->
    exists cs g',
      build_customers pick cids acc g = (inr (acc ++ cs), g')
      /\ map key3 cs = cids
      /\ Forall customer_ok cs.
Proof.
  induction cids as [|cid rest IH]; intros acc g Hc.
  - exists [], g. cbn. rewrite app_nil_r. repeat split. constructor.
  - cbn [build_customers]. unfold DemoDb.bind at 1. unfold DemoDb.lift.
    destruct (index_ok customer_names (cid - 1)) as [name [En _]].
    { pose proof (Hc cid (or_introl eq_refl)). simpl. lia. }
    rewrite En. unfold DemoDb.bind at 1.
    destruct (choice_ok cities g) as [city [g1 [Ec Hin]]]; [discriminate|].
    rewrite Ec.
    destruct (IH (acc ++ [(cid, name, city)]) g1) as [cs [g' [E [Hk Hok]]]].
    { intros c Hin'. apply Hc. now right. }
    rewrite E. exists ((cid, name, city) :: cs), g'. split; [|split].
    + now rewrite <- app_assoc.
    + cbn [map]. now rewrite Hk.
    + constructor; [|exact Hok]. now split.
Qed.

Lemma in_range (a b : nat) (x : Z) :
  (Z.of_nat a <= x < Z.of_nat b)%Z -> In x (range a b).
Proof.
  intros H. unfold range. apply in_map_iff. exists (Z.to_nat x).
  split; [lia|]. apply in_seq. lia.
Qed.

(** The script runs to its end, and what it leaves in the tables. *)
Lemma script_ok (db0 : database) (g : Rng) :
  exists db g',
    script draw pick date isoformat db0 g = (inr db, g')
    /\ products_table db = products
    /\ map key3 (customers_table db) = range 1 16
    /\ Forall customer_ok (customers_table db)
    /\ map sale_id (sales_table db) = range 1 151
    /\ Forall (sale_ok date isoformat) (sales_table db).
Proof.
  unfold script. cbn [products_table customers_table sales_table].
  unfold DemoDb.bind at 1. unfold DemoDb.lift at 1.
  assert (Ep : insert_all key3 products [] = inr products) by reflexivity.
  rewrite Ep. unfold DemoDb.bind at 1.
  destruct (build_customers_ok (range 1 16) [] g) as [cs [g1 [Ec [Hck Hco]]]].
  { intros cid H. apply range_bounds in H. lia. }
  rewrite Ec. cbn [app]. unfold DemoDb.bind at 1. unfold DemoDb.lift at 1.
  rewrite (insert_all_fresh key3 cs [])
    by (cbn [app]; rewrite Hck; apply range_NoDup).
  cbn [app]. unfold DemoDb.bind at 1.
  destruct (build_sales_ok (range 1 151) [] g1) as [ss [g2 [Es [Hsk Hso]]]].
  rewrite Es. cbn [app]. unfold DemoDb.bind at 1. unfold DemoDb.lift at 1.
  rewrite (insert_all_fresh sale_id ss [])
    by (cbn [app]; rewrite Hsk; apply range_NoDup).
  cbn [app]. exists (mkDatabase products cs ss), g2.
  repeat split; assumption.
Qed.


(** X14: every sale the script inserts refers to a product and to a
    customer that are in their tables, has a quantity from 1 to 10 and
    the date of a day from the first of 2023 to the last of 2025. *)
Theorem script_sales_refer_to_rows (db0 : database) (g : Rng) :
  exists db g',
    script draw pick date isoformat db0 g = (inr db, g')
    /\ forall s,
        In s (sales_table db) ->
        (exists p, In p (products_table db) /\ key3 p = sale_product_id s)
        /\ (exists c, In c (customers_table db)
                      /\ key3 c = sale_customer_id s)
        /\ (1 <= sale_quantity s <= 10)%Z
        /\ (exists day,
               sale_date s = isoformat day
               /\ (date 2023 1 1 <= day <= date 2025 12 31)%Z).
Proof.
  destruct (script_ok db0 g) as [db [g' [E [Hp [Hck [_ [_ Hso]]]]]]].
  exists db, g'. split; [exact E|]. intros s Hin.
  rewrite Forall_forall in Hso.
  destruct (Hso s Hin) as [Hpid [Hcid [Hq [_ Hd]]]].
  split; [|split; [|split; [exact Hq | exact Hd]]].
  - assert (H : In (sale_product_id s) (map key3 (products_table db))).
    { rewrite Hp. change (map key3 products) with (range 1 11).
      apply in_range. lia. }
    apply in_map_iff in H. destruct H as [p [Hk Hp']]. now exists p.
  - assert (H : In (sale_customer_id s) (map key3 (customers_table db))).
    { rewrite Hck. apply in_range. lia. }
    apply in_map_iff in H. destruct H as [c [Hk Hc']]. now exists c.
Qed.

(** X15: the price of every sale the script inserts lies within 2000 of
    the price listed for its product, so between -800 and 92000; it is
    above zero for every product but the third, whose listed price of
    1200 is below the largest deduction. *)
Theorem script_prices_near_listed (db0 : database) (g : Rng) :
  exists db g',
    script draw pick date isoformat db0 g = (inr db, g')
    /\ forall s,
        In s (sales_table db) ->
        (exists base,
            lookup price_map (sale_product_id s) = inr base
            /\ (base - 2000 <= sale_price s <= base + 2000)%Z)
        /\ (-800 <= sale_price s <= 92000)%Z
        /\ (sale_product_id s <> 3%Z -> (0 < sale_price s)%Z).
Proof.
  destruct (script_ok db0 g) as [db [g' [E [_ [_ [_ [_ Hso]]]]]]].
  exists db, g'. split; [exact E|]. intros s Hin.
  rewrite Forall_forall in Hso.
  destruct (Hso s Hin) as [Hpid [_ [_ [[base [Eb Hb]] _]]]].
  destruct (lookup_price_ok (sale_product_id s) Hpid) as [b' [Eb' [Hr H3]]].
  rewrite Eb in Eb'. injection Eb' as <-.
  split; [now exists base|]. split; [lia|]. intros Hne.
  specialize (H3 Hne). lia.
Qed.

End DemoDbProps.

Lemma demo_draw_range (lo hi : Z) (g : nat) :
  (lo <= hi)%Z -> (lo <= fst (DemoDb.demo_draw lo hi g) <= hi)%Z.
Proof.
  intros H. unfold DemoDb.demo_draw.
  destruct (Z.eqb_spec lo 1) as [->|_], (Z.eqb_spec hi 10) as [->|_];
    simpl; lia.
Qed.

Lemma demo_pick_range (n g : nat) :
  0 < n -> fst (DemoDb.demo_pick n g) < n.
Proof. intros H. exact H. Qed.

Lemma demo_years_in_order :
  (DemoDb.demo_date 2023 1 1 <= DemoDb.demo_date 2025 12 31)%Z.
Proof. vm_compute. discriminate. Qed.



Lemma script_sales_refer_to_rows_witness :
  exists db g',
    DemoDb.script DemoDb.demo_draw DemoDb.demo_pick DemoDb.demo_date
      DemoDb.demo_isoformat (DemoDb.mkDatabase [] [] []) 0
    = (inr db, g')
    /\ forall s,
        In s (DemoDb.sales_table db) ->
        (exists p, In p (DemoDb.products_table db)
                   /\ DemoDb.key3 p = DemoDb.sale_product_id s)
        /\ (exists c, In c (DemoDb.customers_table db)
                      /\ DemoDb.key3 c = DemoDb.sale_customer_id s)
        /\ (1 <= DemoDb.sale_quantity s <= 10)%Z
        /\ (exists day,
               DemoDb.sale_date s = DemoDb.demo_isoformat day
               /\ (DemoDb.demo_date 2023 1 1 <= day
                   <= DemoDb.demo_date 2025 12 31)%Z).
Proof.
  exact (script_sales_refer_to_rows nat DemoDb.demo_draw DemoDb.demo_pick
           DemoDb.demo_date DemoDb.demo_isoformat
           demo_draw_range demo_pick_range demo_years_in_order
           (DemoDb.mkDatabase [] [] []) 0).
Defined.

Lemma script_prices_near_listed_witness :
  exists db g',
    DemoDb.script DemoDb.demo_draw DemoDb.demo_pick DemoDb.demo_date
      DemoDb.demo_isoformat (DemoDb.mkDatabase [] [] []) 0
    = (inr db, g')
    /\ (forall s,
           In s (DemoDb.sales_table db) ->
           (-800 <= DemoDb.sale_price s <= 92000)%Z)
    /\ exists s,
        In s (DemoDb.sales_table db)
        /\ DemoDb.sale_product_id s = 3%Z
        /\ DemoDb.sale_price s = (-800)%Z.
Proof.
  destruct (script_prices_near_listed nat DemoDb.demo_draw DemoDb.demo_pick
              DemoDb.demo_date DemoDb.demo_isoformat
              demo_draw_range demo_pick_range demo_years_in_order
              (DemoDb.mkDatabase [] [] []) 0) as [db [g' [E H]]].
  exists db, g'. split; [exact E|]. split.
  - intros s Hin. exact (proj1 (proj2 (H s Hin))).
  - vm_compute in E. injection E as <- _.
    eexists. split; [left; reflexivity|]. split; reflexivity.
Defined.

(** ** The run step of the page *)

Section AppProps.

Import Exec App.

Variables Store DataFrame : Type.
Variable sqlite_connect : Store -> option str.
Variable read_sql_query : str -> Store -> (str + DataFrame) * Store.

Local Abbreviation step := (run_step sqlite_connect read_sql_query).


End AppProps.

